(** * LSP server (lsp/server_impl.go): a shallow embedding and its properties

    The server of the Live Sequenced Protocol keeps one [client] object per
    connection, one goroutine [handleConn] that reads datagrams and routes
    them, and one goroutine [handleEvents] per connection.  The goroutines
    share the connection objects through pointers, so the model keeps a heap
    of connection objects and lets every goroutine step on it; the order of
    the steps is the scheduler's and is the list of labels of a run. *)

From Stdlib Require Import ZArith List Bool Lia.
From stdpp Require Import base option list list_numbers gmap fin_maps.

Local Open Scope Z_scope.

(** ** Machine integers

    The counters touched through [sync/atomic] are [int32]; additions wrap
    around in two's complement.  Values of Go type [int] (connection ids,
    sequence numbers carried by messages, the parameters) are integers. *)

Definition wrap32 (z : Z) : Z := (z + 2 ^ 31) mod 2 ^ 32 - 2 ^ 31.

(** ** Messages *)

Inductive MsgType := MsgConnect | MsgData | MsgAck.

(** A byte slice; [None] is the nil slice. *)
Definition bytes := option (list Byte.byte).

Definition len (b : bytes) : Z :=
  match b with
  | None => 0
  | Some l => Z.of_nat (length l)
  end.

(** Modelled from the spec: the declaration of [Message] (message.go) is not
    among the sources.  "Message: a protocol-level envelope: kind (Connect,
    Data, Ack), connection ID, sequence number, payload length, payload
    bytes."  The field names are those the server reads. *)
Record Message := mkMessage {
  Type_ : MsgType;
  ConnID : Z;
  SeqNum : Z;
  Size : Z;
  Payload : bytes
}.

(** Modelled from the spec: the constructors [NewData] and [NewAck]
    (message.go) are not among the sources; they fill the envelope. *)
Definition NewData (connID seqNum size : Z) (payload : bytes) : Message :=
  mkMessage MsgData connID seqNum size payload.

Definition NewAck (connID seqNum : Z) : Message :=
  mkMessage MsgAck connID seqNum 0 None.

(** A peer address ([*lspnet.UDPAddr]). *)
Definition UDPAddr := Z.

(** The only error value of the file. *)
Inductive error := ErrConnClosed.

(** ** Connection objects *)

Module client.

(** The fields are those of the composite literal in [handleConn]
    (lines 117-140); [conn] and [epochTimer] are the server's own socket and
    ticker, shared by pointer, and live in the world below.  Channels hold
    the values sent and not yet received, oldest first, without a bound: a
    send that would wait for room or for a receiver is taken as done, which
    changes when things happen and not their order. *)
Record t := mk {
  connID : Z;
  isClosed : Z;                              (* int32 *)
  isLost : Z;                                (* int32 *)
  closeChan : list Z;
  writeChan : list Message;
  addr : UDPAddr;
  seqNum : Z;                                (* int32 *)
  pendingReceivedMessages : gmap Z Message;
  pendingSendMessages : list Message;
  pendingReceivedMessageQueue : list Message;
  receivedMessageSeqNum : Z;                 (* int32 *)
  pendingReSendMessages : gmap Z Message;
  receivedMessageChan : list Message;
  lastProcessedMessageSeqNum : Z;
  slideWindow : list Z;
  lastAckSeqNum : Z;
  unAckedMessages : gmap Z bool;
  epochLimit : Z;
  windowSize : Z;
  epochFiredCount : Z                        (* int32 *)
}.

Definition set_isLost (v : Z) (c : t) : t :=
  mk (connID c) (isClosed c) v (closeChan c) (writeChan c) (addr c) (seqNum c)
     (pendingReceivedMessages c) (pendingSendMessages c)
     (pendingReceivedMessageQueue c) (receivedMessageSeqNum c)
     (pendingReSendMessages c) (receivedMessageChan c)
     (lastProcessedMessageSeqNum c) (slideWindow c) (lastAckSeqNum c)
     (unAckedMessages c) (epochLimit c) (windowSize c) (epochFiredCount c).

Definition set_closeChan (v : list Z) (c : t) : t :=
  mk (connID c) (isClosed c) (isLost c) v (writeChan c) (addr c) (seqNum c)
     (pendingReceivedMessages c) (pendingSendMessages c)
     (pendingReceivedMessageQueue c) (receivedMessageSeqNum c)
     (pendingReSendMessages c) (receivedMessageChan c)
     (lastProcessedMessageSeqNum c) (slideWindow c) (lastAckSeqNum c)
     (unAckedMessages c) (epochLimit c) (windowSize c) (epochFiredCount c).

Definition set_writeChan (v : list Message) (c : t) : t :=
  mk (connID c) (isClosed c) (isLost c) (closeChan c) v (addr c) (seqNum c)
     (pendingReceivedMessages c) (pendingSendMessages c)
     (pendingReceivedMessageQueue c) (receivedMessageSeqNum c)
     (pendingReSendMessages c) (receivedMessageChan c)
     (lastProcessedMessageSeqNum c) (slideWindow c) (lastAckSeqNum c)
     (unAckedMessages c) (epochLimit c) (windowSize c) (epochFiredCount c).

Definition set_seqNum (v : Z) (c : t) : t :=
  mk (connID c) (isClosed c) (isLost c) (closeChan c) (writeChan c) (addr c) v
     (pendingReceivedMessages c) (pendingSendMessages c)
     (pendingReceivedMessageQueue c) (receivedMessageSeqNum c)
     (pendingReSendMessages c) (receivedMessageChan c)
     (lastProcessedMessageSeqNum c) (slideWindow c) (lastAckSeqNum c)
     (unAckedMessages c) (epochLimit c) (windowSize c) (epochFiredCount c).

Definition set_pendingReceivedMessages (v : gmap Z Message) (c : t) : t :=
  mk (connID c) (isClosed c) (isLost c) (closeChan c) (writeChan c) (addr c)
     (seqNum c) v (pendingSendMessages c)
     (pendingReceivedMessageQueue c) (receivedMessageSeqNum c)
     (pendingReSendMessages c) (receivedMessageChan c)
     (lastProcessedMessageSeqNum c) (slideWindow c) (lastAckSeqNum c)
     (unAckedMessages c) (epochLimit c) (windowSize c) (epochFiredCount c).

Definition set_pendingSendMessages (v : list Message) (c : t) : t :=
  mk (connID c) (isClosed c) (isLost c) (closeChan c) (writeChan c) (addr c)
     (seqNum c) (pendingReceivedMessages c) v
     (pendingReceivedMessageQueue c) (receivedMessageSeqNum c)
     (pendingReSendMessages c) (receivedMessageChan c)
     (lastProcessedMessageSeqNum c) (slideWindow c) (lastAckSeqNum c)
     (unAckedMessages c) (epochLimit c) (windowSize c) (epochFiredCount c).

Definition set_pendingReceivedMessageQueue (v : list Message) (c : t) : t :=
  mk (connID c) (isClosed c) (isLost c) (closeChan c) (writeChan c) (addr c)
     (seqNum c) (pendingReceivedMessages c) (pendingSendMessages c)
     v (receivedMessageSeqNum c)
     (pendingReSendMessages c) (receivedMessageChan c)
     (lastProcessedMessageSeqNum c) (slideWindow c) (lastAckSeqNum c)
     (unAckedMessages c) (epochLimit c) (windowSize c) (epochFiredCount c).

Definition set_receivedMessageSeqNum (v : Z) (c : t) : t :=
  mk (connID c) (isClosed c) (isLost c) (closeChan c) (writeChan c) (addr c)
     (seqNum c) (pendingReceivedMessages c) (pendingSendMessages c)
     (pendingReceivedMessageQueue c) v
     (pendingReSendMessages c) (receivedMessageChan c)
     (lastProcessedMessageSeqNum c) (slideWindow c) (lastAckSeqNum c)
     (unAckedMessages c) (epochLimit c) (windowSize c) (epochFiredCount c).

Definition set_pendingReSendMessages (v : gmap Z Message) (c : t) : t :=
  mk (connID c) (isClosed c) (isLost c) (closeChan c) (writeChan c) (addr c)
     (seqNum c) (pendingReceivedMessages c) (pendingSendMessages c)
     (pendingReceivedMessageQueue c) (receivedMessageSeqNum c)
     v (receivedMessageChan c)
     (lastProcessedMessageSeqNum c) (slideWindow c) (lastAckSeqNum c)
     (unAckedMessages c) (epochLimit c) (windowSize c) (epochFiredCount c).

Definition set_receivedMessageChan (v : list Message) (c : t) : t :=
  mk (connID c) (isClosed c) (isLost c) (closeChan c) (writeChan c) (addr c)
     (seqNum c) (pendingReceivedMessages c) (pendingSendMessages c)
     (pendingReceivedMessageQueue c) (receivedMessageSeqNum c)
     (pendingReSendMessages c) v
     (lastProcessedMessageSeqNum c) (slideWindow c) (lastAckSeqNum c)
     (unAckedMessages c) (epochLimit c) (windowSize c) (epochFiredCount c).

Definition set_lastProcessedMessageSeqNum (v : Z) (c : t) : t :=
  mk (connID c) (isClosed c) (isLost c) (closeChan c) (writeChan c) (addr c)
     (seqNum c) (pendingReceivedMessages c) (pendingSendMessages c)
     (pendingReceivedMessageQueue c) (receivedMessageSeqNum c)
     (pendingReSendMessages c) (receivedMessageChan c)
     v (slideWindow c) (lastAckSeqNum c)
     (unAckedMessages c) (epochLimit c) (windowSize c) (epochFiredCount c).

Definition set_slideWindow (v : list Z) (c : t) : t :=
  mk (connID c) (isClosed c) (isLost c) (closeChan c) (writeChan c) (addr c)
     (seqNum c) (pendingReceivedMessages c) (pendingSendMessages c)
     (pendingReceivedMessageQueue c) (receivedMessageSeqNum c)
     (pendingReSendMessages c) (receivedMessageChan c)
     (lastProcessedMessageSeqNum c) v (lastAckSeqNum c)
     (unAckedMessages c) (epochLimit c) (windowSize c) (epochFiredCount c).

Definition set_lastAckSeqNum (v : Z) (c : t) : t :=
  mk (connID c) (isClosed c) (isLost c) (closeChan c) (writeChan c) (addr c)
     (seqNum c) (pendingReceivedMessages c) (pendingSendMessages c)
     (pendingReceivedMessageQueue c) (receivedMessageSeqNum c)
     (pendingReSendMessages c) (receivedMessageChan c)
     (lastProcessedMessageSeqNum c) (slideWindow c) v
     (unAckedMessages c) (epochLimit c) (windowSize c) (epochFiredCount c).

Definition set_unAckedMessages (v : gmap Z bool) (c : t) : t :=
  mk (connID c) (isClosed c) (isLost c) (closeChan c) (writeChan c) (addr c)
     (seqNum c) (pendingReceivedMessages c) (pendingSendMessages c)
     (pendingReceivedMessageQueue c) (receivedMessageSeqNum c)
     (pendingReSendMessages c) (receivedMessageChan c)
     (lastProcessedMessageSeqNum c) (slideWindow c) (lastAckSeqNum c)
     v (epochLimit c) (windowSize c) (epochFiredCount c).

Definition set_epochFiredCount (v : Z) (c : t) : t :=
  mk (connID c) (isClosed c) (isLost c) (closeChan c) (writeChan c) (addr c)
     (seqNum c) (pendingReceivedMessages c) (pendingSendMessages c)
     (pendingReceivedMessageQueue c) (receivedMessageSeqNum c)
     (pendingReSendMessages c) (receivedMessageChan c)
     (lastProcessedMessageSeqNum c) (slideWindow c) (lastAckSeqNum c)
     (unAckedMessages c) (epochLimit c) (windowSize c) v.

(** *** The methods of [client]

    The methods are declared in client_impl.go, which is not among the
    sources; the server calls them by name.  Each is written from the
    operation of the specification it implements. *)

(** Modelled from the spec: [isConnClosed] of a connection is missing.
    [write] "fails ... if ... the target connection ... is itself
    closing/lost": the test is true when either flag is set. *)
Definition isConnClosed (c : t) : bool :=
  negb (isClosed c =? 0) || negb (isLost c =? 0).

(** Modelled from the spec: [processPendingSendMessages] is missing; it is
    [slideWindowAdvance]: "while len(slideWindow) < windowSize and
    pendingSendQueue non-empty, pop front of pendingSendQueue, add its
    sequence number to slideWindow and unAcked, transmit it, and register it
    in pendingResend for epoch replay."  The result lists the messages
    handed to the send callback, in order. *)
Fixpoint slideWindowAdvance (pending : list Message) (c : t)
  : t * list Message :=
  match pending with
  | [] => (set_pendingSendMessages [] c, [])
  | m :: rest =>
      if Z.of_nat (length (slideWindow c)) <? windowSize c then
        let c1 := set_slideWindow (slideWindow c ++ [SeqNum m]) c in
        let c2 := set_unAckedMessages (<[SeqNum m := true]> (unAckedMessages c1)) c1 in
        let c3 := set_pendingReSendMessages
                    (<[SeqNum m := m]> (pendingReSendMessages c2)) c2 in
        let '(c4, sent) := slideWindowAdvance rest c3 in
        (c4, m :: sent)
      else (set_pendingSendMessages pending c, [])
  end.

Definition processPendingSendMessages (c : t) : t * list Message :=
  slideWindowAdvance (pendingSendMessages c) c.

(** The leading entries of the window that are no longer unacknowledged are
    dropped; the first entry still in [unAcked] stops the scan. *)
Fixpoint advanceFront (unAcked : gmap Z bool) (window : list Z) : list Z :=
  match window with
  | [] => []
  | k :: rest =>
      if default false (unAcked !! k) then window
      else advanceFront unAcked rest
  end.

(** Modelled from the spec: [processAckMessage] is missing; it is [onAck]:
    "removes seqNum from unAcked and pendingResend; if it was the front of
    slideWindow, advances the window front past all now-acknowledged leading
    entries, then calls slideWindowAdvance()." *)
Definition processAckMessage (c : t) (msg : Message) : t * list Message :=
  let c1 := set_unAckedMessages (delete (SeqNum msg) (unAckedMessages c)) c in
  let c2 := set_pendingReSendMessages
              (delete (SeqNum msg) (pendingReSendMessages c1)) c1 in
  match slideWindow c2 with
  | k :: _ =>
      if k =? SeqNum msg then
        processPendingSendMessages
          (set_slideWindow (advanceFront (unAckedMessages c2) (slideWindow c2)) c2)
      else (c2, [])
  | [] => (c2, [])
  end.

(** The reassembly loop of [onDataReceived]: "repeatedly checks whether
    lastDeliveredSeqNum + 1 is present in pendingReceived; each contiguous
    hit is moved from pendingReceived into readyQueue and
    lastDeliveredSeqNum is incremented."  Every round removes one entry of
    the map, so the number of entries bounds the number of rounds
    ([reassemble_complete] below). *)
Fixpoint reassemble (rounds : nat) (c : t) : t :=
  match rounds with
  | O => c
  | S rounds' =>
      let next := lastProcessedMessageSeqNum c + 1 in
      match pendingReceivedMessages c !! next with
      | Some m =>
          let c1 := set_pendingReceivedMessages
                      (delete next (pendingReceivedMessages c)) c in
          let c2 := set_pendingReceivedMessageQueue
                      (pendingReceivedMessageQueue c1 ++ [m]) c1 in
          reassemble rounds' (set_lastProcessedMessageSeqNum next c2)
      | None => c
      end
  end.

(** Modelled from the spec: [processReceivedMessage] is missing; it is
    [onDataReceived]: "if msg.seqNum <= lastDeliveredSeqNum, it is a
    duplicate: still must trigger an acknowledgment reply but is not
    re-queued.  Otherwise stored in pendingReceived.  Then ..." the
    reassembly loop.  [lastProcessedMessageSeqNum] is the field the spec
    calls lastDeliveredSeqNum.  The acknowledgment the message calls for is
    the one owed to the peer from now on; [lastAckSeqNum] keeps its sequence
    number for [resendAckMessages]. *)
Definition processReceivedMessage (c : t) (msg : Message) : t :=
  let c1 :=
    if SeqNum msg <=? lastProcessedMessageSeqNum c then c
    else set_pendingReceivedMessages
           (<[SeqNum msg := msg]> (pendingReceivedMessages c)) c in
  let c2 := set_lastAckSeqNum (SeqNum msg) c1 in
  reassemble (size (pendingReceivedMessages c2)) c2.

(** Modelled from the spec: [checkCloseComplete] is missing.  "Closing:
    local close requested; ... window continues draining until all unAcked
    is empty, then transitions to Closed." *)
Definition checkCloseComplete (c : t) : bool :=
  negb (isClosed c =? 0) && bool_decide (unAckedMessages c = ∅).

(** Modelled from the spec: [processPendingReSendMessages] is missing; an
    epoch tick "re-transmits every entry in pendingResend".  Go ranges over
    a map in no fixed order; the model takes the order of [map_to_list]. *)
Definition processPendingReSendMessages (c : t) : list Message :=
  (map_to_list (pendingReSendMessages c)).*2.

(** Modelled from the spec: [resendAckMessages] is missing; an epoch tick
    "re-sends the most recent acknowledgment owed to the peer". *)
Definition resendAckMessages (c : t) : list Message :=
  [NewAck (connID c) (lastAckSeqNum c)].

End client.

(** ** The server object *)

(** Modelled from the spec: the declaration of [Params] (params.go) is not
    among the sources.  "Configuration accepted at construction:
    windowSize, epochMillis, epochLimit." *)
Record Params := mkParams {
  EpochLimit : Z;
  EpochMillis : Z;
  WindowSize : Z
}.

Module server.

(** [clients] maps a connection id to a pointer, the index of the connection
    object in the heap of the world.  [conn] and [epochTimer] are in the
    world.  [mutex] guards [clients]; every step below is atomic. *)
Record t := mk {
  windowSize : Z;
  epochLimit : Z;
  clients : gmap Z nat;
  nextClientID : Z;
  isClosed : Z;                              (* int32 *)
  closeChan : list Z;
  closeClientChan : list Z;
  completeCloseChan : list Z;
  readChan : list Message
}.

Definition set_clients (v : gmap Z nat) (s : t) : t :=
  mk (windowSize s) (epochLimit s) v (nextClientID s) (isClosed s)
     (closeChan s) (closeClientChan s) (completeCloseChan s) (readChan s).

Definition set_nextClientID (v : Z) (s : t) : t :=
  mk (windowSize s) (epochLimit s) (clients s) v (isClosed s)
     (closeChan s) (closeClientChan s) (completeCloseChan s) (readChan s).

Definition set_isClosed (v : Z) (s : t) : t :=
  mk (windowSize s) (epochLimit s) (clients s) (nextClientID s) v
     (closeChan s) (closeClientChan s) (completeCloseChan s) (readChan s).

Definition set_closeChan (v : list Z) (s : t) : t :=
  mk (windowSize s) (epochLimit s) (clients s) (nextClientID s) (isClosed s)
     v (closeClientChan s) (completeCloseChan s) (readChan s).

Definition set_closeClientChan (v : list Z) (s : t) : t :=
  mk (windowSize s) (epochLimit s) (clients s) (nextClientID s) (isClosed s)
     (closeChan s) v (completeCloseChan s) (readChan s).

Definition set_completeCloseChan (v : list Z) (s : t) : t :=
  mk (windowSize s) (epochLimit s) (clients s) (nextClientID s) (isClosed s)
     (closeChan s) (closeClientChan s) v (readChan s).

Definition set_readChan (v : list Message) (s : t) : t :=
  mk (windowSize s) (epochLimit s) (clients s) (nextClientID s) (isClosed s)
     (closeChan s) (closeClientChan s) (completeCloseChan s) v.

(** [func (s *server) isConnClosed() bool] *)
Definition isConnClosed (s : t) : bool :=
  if isClosed s =? 0 then false else true.

End server.

(** ** The world: the server, the connection objects and the goroutines *)

(** [heap] holds every connection object ever built, at the index that is
    its pointer.  [loops] is the set of connections whose [handleEvents]
    goroutine has not returned, [demux] tells whether [handleConn] has not
    returned.  The ticker [s.epochTimer] is one object shared by every
    connection: its channel holds at most one tick.  [wire] lists the
    datagrams written to the socket, each with the connection object that
    [sendMessageToClient] was called on, [readLog] the messages put on
    [s.readChan], each with the connection whose loop put it there, and
    [taken] the messages [Read] has received from [s.readChan]. *)
Record world := mkWorld {
  srv : server.t;
  heap : list client.t;
  tickPending : bool;
  tickerStopped : bool;
  demux : bool;
  loops : gset nat;
  connOpen : bool;
  wire : list (nat * UDPAddr * Message);
  readLog : list (nat * Message);
  taken : list Message
}.

Definition set_srv (v : server.t) (w : world) : world :=
  mkWorld v (heap w) (tickPending w) (tickerStopped w) (demux w) (loops w)
          (connOpen w) (wire w) (readLog w) (taken w).

Definition set_heap (v : list client.t) (w : world) : world :=
  mkWorld (srv w) v (tickPending w) (tickerStopped w) (demux w) (loops w)
          (connOpen w) (wire w) (readLog w) (taken w).

Definition set_tickPending (v : bool) (w : world) : world :=
  mkWorld (srv w) (heap w) v (tickerStopped w) (demux w) (loops w)
          (connOpen w) (wire w) (readLog w) (taken w).

Definition set_tickerStopped (v : bool) (w : world) : world :=
  mkWorld (srv w) (heap w) (tickPending w) v (demux w) (loops w)
          (connOpen w) (wire w) (readLog w) (taken w).

Definition set_demux (v : bool) (w : world) : world :=
  mkWorld (srv w) (heap w) (tickPending w) (tickerStopped w) v (loops w)
          (connOpen w) (wire w) (readLog w) (taken w).

Definition set_loops (v : gset nat) (w : world) : world :=
  mkWorld (srv w) (heap w) (tickPending w) (tickerStopped w) (demux w) v
          (connOpen w) (wire w) (readLog w) (taken w).

Definition set_connOpen (v : bool) (w : world) : world :=
  mkWorld (srv w) (heap w) (tickPending w) (tickerStopped w) (demux w)
          (loops w) v (wire w) (readLog w) (taken w).

Definition set_wire (v : list (nat * UDPAddr * Message)) (w : world) : world :=
  mkWorld (srv w) (heap w) (tickPending w) (tickerStopped w) (demux w)
          (loops w) (connOpen w) v (readLog w) (taken w).

Definition set_readLog (v : list (nat * Message)) (w : world) : world :=
  mkWorld (srv w) (heap w) (tickPending w) (tickerStopped w) (demux w)
          (loops w) (connOpen w) (wire w) v (taken w).

Definition set_taken (v : list Message) (w : world) : world :=
  mkWorld (srv w) (heap w) (tickPending w) (tickerStopped w) (demux w)
          (loops w) (connOpen w) (wire w) (readLog w) v.

(** [NewServer]: the world once the socket is bound and [handleConn] is
    started.  Failure to resolve or to listen returns before any of this
    exists. *)
Definition NewServer (params : Params) : world :=
  {| srv := {| server.windowSize := WindowSize params;
               server.epochLimit := EpochLimit params;
               server.clients := ∅;
               server.nextClientID := 0;
               server.isClosed := 0;
               server.closeChan := [];
               server.closeClientChan := [];
               server.completeCloseChan := [];
               server.readChan := [] |};
     heap := [];
     tickPending := false;
     tickerStopped := false;
     demux := true;
     loops := ∅;
     connOpen := true;
     wire := [];
     readLog := [];
     taken := [] |}.

(** ** [handleConn] *)

(** The connection object built for a Connect message (lines 117-140). *)
Definition newClient (s : server.t) (a : UDPAddr) : client.t :=
  {| client.connID := server.nextClientID s;
     client.isClosed := 0;
     client.isLost := 0;
     client.closeChan := [];
     client.writeChan := [];
     client.addr := a;
     client.seqNum := 0;
     client.pendingReceivedMessages := ∅;
     client.pendingSendMessages := [];
     client.pendingReceivedMessageQueue := [];
     client.receivedMessageSeqNum := 0;
     client.pendingReSendMessages := ∅;
     client.receivedMessageChan := [];
     client.lastProcessedMessageSeqNum := 1;
     client.slideWindow := [];
     client.lastAckSeqNum := 0;
     client.unAckedMessages := ∅;
     client.epochLimit := server.epochLimit s;
     client.windowSize := server.windowSize s;
     client.epochFiredCount := 0 |}.

(** What [handleConn] does to the connection a Data message is for
    (lines 109-112). *)
Definition routeData (message : Message) (c : client.t) : client.t :=
  let c1 := client.set_receivedMessageSeqNum
              (wrap32 (client.receivedMessageSeqNum c + 1)) c in
  let c2 := client.set_epochFiredCount 0 c1 in
  let c3 := client.set_writeChan
              (client.writeChan c2 ++ [NewAck (ConnID message) (SeqNum message)]) c2 in
  client.set_receivedMessageChan (client.receivedMessageChan c3 ++ [message]) c3.

(** What [handleConn] does to the connection an Ack message is for
    (line 101). *)
Definition routeAck (message : Message) (c : client.t) : client.t :=
  client.set_receivedMessageChan (client.receivedMessageChan c ++ [message]) c.

(** The [default] branch once [ReadFromUDP] has returned a datagram
    (lines 92-147). *)
Definition onDatagram (a : UDPAddr) (message : Message) (w : world) : world :=
  let s := srv w in
  match Type_ message with
  | MsgAck =>
      match server.clients s !! ConnID message with
      | None => w
      | Some p => set_heap (alter (routeAck message) p (heap w)) w
      end
  | MsgData =>
      match server.clients s !! ConnID message with
      | None => w
      | Some p => set_heap (alter (routeData message) p (heap w)) w
      end
  | MsgConnect =>
      if server.isConnClosed s then w
      else
        let c := newClient s a in
        let p := length (heap w) in
        let s1 := server.set_clients (<[server.nextClientID s := p]> (server.clients s)) s in
        let c1 := client.set_writeChan
                    (client.writeChan c ++ [NewAck (client.connID c) (client.seqNum c)]) c in
        let s2 := server.set_nextClientID (server.nextClientID s1 + 1) s1 in
        set_loops ({[p]} ∪ loops w) (set_heap (heap w ++ [c1]) (set_srv s2 w))
  end.

(** The branch of the [select] of [handleConn] that is taken.  [default]
    blocks in [ReadFromUDP], which returns a datagram or an error. *)
Inductive conn_case :=
| CaseClose
| CaseCloseClient
| CaseDefault (r : option (UDPAddr * Message)).

(** One round of the loop of [handleConn]; [None] when the branch cannot be
    taken (nothing to receive) or the goroutine has returned. *)
Definition handleConn (cs : conn_case) (w : world) : option world :=
  if negb (demux w) then None
  else
    let s := srv w in
    match cs with
    | CaseClose =>
        match server.closeChan s with
        | [] => None
        | _ :: rest =>
            let s1 := server.set_isClosed 1 (server.set_closeChan rest s) in
            if (size (server.clients s1) =? 0)%nat then
              Some (set_demux false
                      (set_srv (server.set_completeCloseChan
                                  (server.completeCloseChan s1 ++ [1]) s1) w))
            else Some (set_srv s1 w)
        end
    | CaseCloseClient =>
        match server.closeClientChan s with
        | [] => None
        | connID :: rest =>
            let s1 := server.set_clients (delete connID (server.clients s))
                        (server.set_closeClientChan rest s) in
            if server.isConnClosed s1 && (size (server.clients s1) =? 0)%nat then
              Some (set_demux false
                      (set_srv (server.set_completeCloseChan
                                  (server.completeCloseChan s1 ++ [1]) s1) w))
            else Some (set_srv s1 w)
        end
    | CaseDefault None => Some (set_demux false w)
    | CaseDefault (Some (a, message)) => Some (onDatagram a message w)
    end.

(** ** [handleEvents] *)

(** What a round of the event loop does outside the connection object. *)
Inductive effect :=
| ToReadChan (m : Message)      (* s.readChan <- message *)
| Send (m : Message)            (* sendMessageToClient(c, m) *)
| TickTaken                     (* <-c.epochTimer.C *)
| TimerStop.                    (* c.epochTimer.Stop() *)

(** [prepareReadMessage]: the front of the queue is put on [s.readChan] and
    removed, until the queue is empty.  The other branch of its [select]
    receives from [c.toCloseChan]; the literal that builds the connection
    leaves that field nil and nothing in the file assigns it, and a receive
    from a nil channel is never ready, so the branch is never taken. *)
Fixpoint drainQueue (queue : list Message) (c : client.t)
  : client.t * list effect :=
  match queue with
  | [] => (c, [])
  | message :: rest =>
      let c1 := client.set_pendingReceivedMessageQueue rest c in
      let '(c2, es) := drainQueue rest c1 in
      (c2, ToReadChan message :: es)
  end.

Definition prepareReadMessage (c : client.t) : client.t * list effect :=
  drainQueue (client.pendingReceivedMessageQueue c) c.

(** The branch of the [select] of [handleEvents] that is taken. *)
Inductive select_case := SelWrite | SelEpoch | SelRecv.

Inductive status := Looping | Returned.

(** The branch [case message, ok := <-c.writeChan] (lines 164-176).
    [writeChan] is never closed in the file, so the receive always has
    [ok].  [None] when the channel has nothing to receive. *)
Definition onWriteChan (c : client.t)
  : option (client.t * list effect * status) :=
  match client.writeChan c with
  | [] => None
  | message :: rest =>
      let c := client.set_writeChan rest c in
      if negb (client.isConnClosed c) then
        match Type_ message with
        | MsgData =>
            let c := client.set_pendingSendMessages
                       (client.pendingSendMessages c ++ [message]) c in
            let '(c, sent) := client.processPendingSendMessages c in
            Some (c, Send <$> sent, Looping)
        | MsgAck =>
            Some (c, [Send (NewAck (ConnID message) (SeqNum message))], Looping)
        | MsgConnect => Some (c, [], Looping)
        end
      else Some (c, [], Looping)
  end.

(** The branch [case <-c.epochTimer.C] (lines 177-185); [tick] tells
    whether the channel of the ticker holds a tick. *)
Definition onEpoch (tick : bool) (c : client.t)
  : option (client.t * list effect * status) :=
  if negb tick then None
  else
    let c := client.set_epochFiredCount
               (wrap32 (client.epochFiredCount c + 1)) c in
    if client.epochFiredCount c >? client.epochLimit c then
      Some (client.set_isLost 1 c, [TickTaken; TimerStop], Returned)
    else
      Some (c, [TickTaken]
                 ++ (Send <$> client.processPendingReSendMessages c)
                 ++ (Send <$> client.resendAckMessages c),
            Looping).

(** The branch [case msg := <-c.receivedMessageChan] (lines 186-198). *)
Definition onReceived (c : client.t)
  : option (client.t * list effect * status) :=
  match client.receivedMessageChan c with
  | [] => None
  | msg :: rest =>
      let c := client.set_receivedMessageChan rest c in
      let '(c, sent) :=
        match Type_ msg with
        | MsgAck => client.processAckMessage c msg
        | MsgData => (client.processReceivedMessage c msg, [])
        | MsgConnect => (c, [])
        end in
      if client.checkCloseComplete c then
        Some (client.set_closeChan (client.closeChan c ++ [1]) c,
              Send <$> sent, Returned)
      else
        let '(c, es) := prepareReadMessage c in
        Some (c, (Send <$> sent) ++ es, Looping)
  end.

(** One round of the loop of [handleEvents] (lines 154-198) on the
    connection object [c]: the queue is handed over, a lost connection
    makes the goroutine return, and otherwise the [select] takes the branch
    [sel].  [None] when that branch has nothing to receive: the goroutine
    stays in the [select]. *)
Definition handleEvents (tick : bool) (sel : select_case) (c : client.t)
  : option (client.t * list effect * status) :=
  let '(c, es) :=
    match client.pendingReceivedMessageQueue c with
    | [] => (c, [])
    | _ :: _ => prepareReadMessage c
    end in
  if negb (client.isLost c =? 0) then
    Some (client.set_closeChan (client.closeChan c ++ [1]) c, es, Returned)
  else
    '(c', es', st) ←
      match sel with
      | SelWrite => onWriteChan c
      | SelEpoch => onEpoch tick c
      | SelRecv => onReceived c
      end;
    Some (c', es ++ es', st).

(** [sendMessageToClient] writes the datagram to the address of the
    connection; errors of the codec and of the socket are dropped there. *)
Definition applyEffect (p : nat) (a : UDPAddr) (w : world) (e : effect) : world :=
  match e with
  | ToReadChan m =>
      set_readLog (readLog w ++ [(p, m)])
        (set_srv (server.set_readChan (server.readChan (srv w) ++ [m]) (srv w)) w)
  | Send m => set_wire (wire w ++ [(p, a, m)]) w
  | TickTaken => set_tickPending false w
  | TimerStop => set_tickerStopped true w
  end.

(** A round of the goroutine [handleEvents] of the connection at [p]. *)
Definition eventsStep (p : nat) (sel : select_case) (w : world) : option world :=
  if bool_decide (p ∈ loops w) then
    match heap w !! p with
    | None => None
    | Some c =>
        match handleEvents (tickPending w) sel c with
        | None => None
        | Some (c', es, st) =>
            let w1 := set_heap (<[p := c']> (heap w)) w in
            let w2 := foldl (applyEffect p (client.addr c)) w1 es in
            Some match st with
                 | Looping => w2
                 | Returned => set_loops (loops w2 ∖ {[p]}) w2
                 end
        end
    end
  else None.

(** ** The calls of the application *)

(** The branch of the [select] of [Read] that is taken. *)
Inductive read_case := ReadMessage | ReadClose.

(** [Read]: the world after the call and the three results; [None] when the
    chosen channel has nothing to receive. *)
Definition Read (rc : read_case) (w : world)
  : option (world * (Z * bytes * option error)) :=
  let s := srv w in
  match rc with
  | ReadMessage =>
      match server.readChan s with
      | [] => None
      | message :: rest =>
          Some (set_taken (taken w ++ [message])
                  (set_srv (server.set_readChan rest s) w),
                (ConnID message, Payload message, None))
      end
  | ReadClose =>
      match server.closeChan s with
      | [] => None
      | _ :: rest =>
          Some (set_srv (server.set_closeChan rest s) w, (-1, None, None))
      end
  end.

(** [Write] *)
Definition Write (connID : Z) (payload : bytes) (w : world)
  : world * option error :=
  let s := srv w in
  if server.isConnClosed s then (w, Some ErrConnClosed)
  else
    match server.clients s !! connID with
    | None => (w, Some ErrConnClosed)
    | Some p =>
        match heap w !! p with
        | None => (w, Some ErrConnClosed)
        | Some c =>
            if client.isConnClosed c then (w, Some ErrConnClosed)
            else
              let c1 := client.set_seqNum (wrap32 (client.seqNum c + 1)) c in
              let message := NewData connID (client.seqNum c1) (len payload) payload in
              let c2 := client.set_writeChan (client.writeChan c1 ++ [message]) c1 in
              (set_heap (<[p := c2]> (heap w)) w, None)
        end
    end.

(** The signal [client.closeChan <- 1]. *)
Definition signalClose (c : client.t) : client.t :=
  client.set_closeChan (client.closeChan c ++ [1]) c.

(** [CloseConn] *)
Definition CloseConn (connID : Z) (w : world) : world * option error :=
  match server.clients (srv w) !! connID with
  | None => (w, Some ErrConnClosed)
  | Some p => (set_heap (alter signalClose p (heap w)) w, None)
  end.

(** [Close], up to and including [s.closeChan <- 1]. *)
Definition CloseSignal (w : world) : world :=
  let h := foldr (fun kp h => alter signalClose kp.2 h) (heap w)
                 (map_to_list (server.clients (srv w))) in
  set_srv (server.set_closeChan (server.closeChan (srv w) ++ [1]) (srv w))
          (set_heap h w).

(** [Close], from [<-s.completeCloseChan] on. *)
Definition CloseWait (w : world) : option world :=
  match server.completeCloseChan (srv w) with
  | [] => None
  | _ :: rest =>
      Some (set_connOpen false
              (set_srv (server.set_completeCloseChan rest (srv w)) w))
  end.

(** ** Runs *)

(** What can happen next: the ticker fires, a goroutine runs one round, the
    application makes a call. *)
Inductive label :=
| Tick
| Conn (cs : conn_case)
| Events (p : nat) (sel : select_case)
| CallRead (rc : read_case)
| CallWrite (connID : Z) (payload : bytes)
| CallCloseConn (connID : Z)
| CallClose
| CallCloseWait.

Definition step (l : label) (w : world) : option world :=
  match l with
  | Tick => if tickerStopped w then None else Some (set_tickPending true w)
  | Conn cs => handleConn cs w
  | Events p sel => eventsStep p sel w
  | CallRead rc => fst <$> Read rc w
  | CallWrite connID payload => Some (Write connID payload w).1
  | CallCloseConn connID => Some (CloseConn connID w).1
  | CallClose => Some (CloseSignal w)
  | CallCloseWait => CloseWait w
  end.

Fixpoint run (ls : list label) (w : world) : option world :=
  match ls with
  | [] => Some w
  | l :: ls' =>
      match step l w with
      | None => None
      | Some w' => run ls' w'
      end
  end.

(** The worlds a server built with [params] can be in. *)
Definition reachable (params : Params) (w : world) : Prop :=
  ∃ ls, run ls (NewServer params) = Some w.

(** ** Predicates used by the statements *)

(** [c] with the send-side fields of [src]: a method that returns
    [with_send c' c] for its result [c'] has touched nothing else. *)
Definition with_send (src c : client.t) : client.t :=
  client.set_slideWindow (client.slideWindow src)
    (client.set_unAckedMessages (client.unAckedMessages src)
       (client.set_pendingReSendMessages (client.pendingReSendMessages src)
          (client.set_pendingSendMessages (client.pendingSendMessages src) c))).

(** [c] with the receive-side fields of [src]. *)
Definition with_recv (src c : client.t) : client.t :=
  client.set_pendingReceivedMessages (client.pendingReceivedMessages src)
    (client.set_pendingReceivedMessageQueue (client.pendingReceivedMessageQueue src)
       (client.set_lastProcessedMessageSeqNum (client.lastProcessedMessageSeqNum src)
          (client.set_lastAckSeqNum (client.lastAckSeqNum src) c))).

(** The messages a list of effects puts on [s.readChan], and those it sends
    to the peer. *)
Definition reads (es : list effect) : list Message :=
  omap (fun e => match e with ToReadChan m => Some m | _ => None end) es.

Definition sends (es : list effect) : list Message :=
  omap (fun e => match e with Send m => Some m | _ => None end) es.

(** The window holds at most [windowSize] entries. *)
Definition window_ok (c : client.t) : Prop :=
  Z.of_nat (length (client.slideWindow c)) ≤ client.windowSize c.

(** Out-of-order arrivals are filed under their own sequence number, all
    beyond the last one queued for the application. *)
Definition pending_ok (c : client.t) : Prop :=
  ∀ k m, client.pendingReceivedMessages c !! k = Some m →
         SeqNum m = k ∧ client.lastProcessedMessageSeqNum c < k.

(** What one round of a method adds to the queue for the application: the
    sequence numbers put on [s.readChan] in the round, then those still
    queued, are the ones queued before followed by the next ones in order. *)
Definition recv_rel (c c' : client.t) (out : list Message) : Prop :=
  client.lastProcessedMessageSeqNum c ≤ client.lastProcessedMessageSeqNum c' ∧
  (SeqNum <$> out) ++ (SeqNum <$> client.pendingReceivedMessageQueue c') =
  (SeqNum <$> client.pendingReceivedMessageQueue c) ++
  seqZ (client.lastProcessedMessageSeqNum c + 1)
       (client.lastProcessedMessageSeqNum c' - client.lastProcessedMessageSeqNum c).

(** Every message a connection holds on its receive side carries the id of
    the connection. *)
Definition msgs_ok (c : client.t) : Prop :=
  Forall (fun m => ConnID m = client.connID c) (client.receivedMessageChan c) ∧
  Forall (fun m => ConnID m = client.connID c) (client.pendingReceivedMessageQueue c) ∧
  (∀ k m, client.pendingReceivedMessages c !! k = Some m → ConnID m = client.connID c).

(** The silent-epoch counter stays within the limit while the connection is
    not lost, and is one beyond it at most. *)
Definition epoch_ok (c : client.t) : Prop :=
  0 ≤ client.epochFiredCount c ≤ client.epochLimit c + 1 ∧
  (client.isLost c = 0 → client.epochFiredCount c ≤ client.epochLimit c).

(** The invariant of a connection object of a server built with [params]. *)
Definition cinv (params : Params) (c : client.t) : Prop :=
  client.isClosed c = 0 ∧
  (client.isLost c = 0 ∨ client.isLost c = 1) ∧
  client.windowSize c = WindowSize params ∧
  client.epochLimit c = EpochLimit params ∧
  (0 ≤ WindowSize params → window_ok c) ∧
  pending_ok c ∧
  msgs_ok c ∧
  (0 ≤ EpochLimit params < 2 ^ 31 - 1 → epoch_ok c).

(** What every round of the event loop keeps or establishes, from the
    connection [c] before to [c'] after, with the effects [es] and the
    status [st] of the goroutine. *)
Definition round_ok (params : Params) (c c' : client.t) (es : list effect)
    (st : status) : Prop :=
  cinv params c' ∧
  client.connID c' = client.connID c ∧
  client.addr c' = client.addr c ∧
  recv_rel c c' (reads es) ∧
  Forall (fun m => ConnID m = client.connID c) (reads es) ∧
  (st = Returned ↔ client.isLost c' = 1) ∧
  (st = Looping → client.pendingReceivedMessageQueue c' = []).

(** The messages the loop of the connection at [p] has put on [s.readChan],
    oldest first: what [Read] hands to the application for that
    connection. *)
Definition delivered (p : nat) (w : world) : list Message :=
  (filter (fun x => x.1 = p) (readLog w)).*2.

(** The messages [Read] has returned with the connection id [id], oldest
    first: what the application has seen of that connection. *)
Definition readBy (id : Z) (w : world) : list Message :=
  filter (fun m => ConnID m = id) (taken w).

(** The datagrams written for the connection at [p], oldest first. *)
Definition sent (p : nat) (w : world) : list Message :=
  (filter (fun x => x.1.1 = p) (wire w)).*2.

(** The invariant of the connection object [c] at address [p]. *)
Definition heap_ok (params : Params) (w : world) (p : nat) (c : client.t) : Prop :=
  client.connID c = Z.of_nat p ∧
  cinv params c ∧
  (p ∈ loops w ↔ client.isLost c = 0) ∧
  (p ∈ loops w → client.pendingReceivedMessageQueue c = []) ∧
  1 ≤ client.lastProcessedMessageSeqNum c ∧
  (SeqNum <$> delivered p w) ++ (SeqNum <$> client.pendingReceivedMessageQueue c)
  = seqZ 2 (client.lastProcessedMessageSeqNum c - 1).

(** The invariant of the world of a server built with [params]. *)
Definition winv (params : Params) (w : world) : Prop :=
  server.nextClientID (srv w) = Z.of_nat (length (heap w)) ∧
  server.windowSize (srv w) = WindowSize params ∧
  server.epochLimit (srv w) = EpochLimit params ∧
  (∀ k p, server.clients (srv w) !! k = Some p →
          k = Z.of_nat p ∧ (p < length (heap w))%nat) ∧
  (∀ p, p ∈ loops w → (p < length (heap w))%nat) ∧
  (∀ x, x ∈ readLog w → (x.1 < length (heap w))%nat) ∧
  Forall (fun m => 0 ≤ ConnID m < server.nextClientID (srv w))
         (taken w ++ server.readChan (srv w)) ∧
  (∀ p c, heap w !! p = Some c → heap_ok params w p c) ∧
  (∀ p, (p < length (heap w))%nat →
        filter (fun m => ConnID m = Z.of_nat p) (taken w ++ server.readChan (srv w))
        = delivered p w).

(** A change of a connection object that leaves alone what the loop of the
    connection owns. *)
Definition quiet (params : Params) (c c' : client.t) : Prop :=
  client.connID c' = client.connID c ∧
  client.isLost c' = client.isLost c ∧
  client.pendingReceivedMessageQueue c' = client.pendingReceivedMessageQueue c ∧
  client.lastProcessedMessageSeqNum c' = client.lastProcessedMessageSeqNum c ∧
  (cinv params c → cinv params c').

(** ** Concrete runs *)

(** A server with a window of one message and an epoch limit of two. *)
Definition params1 : Params := mkParams 2 100 1.

Definition connect1 : Message := mkMessage MsgConnect 0 0 0 None.

Definition data1 (seqNum : Z) : Message :=
  mkMessage MsgData 0 seqNum 3
            (Some [Byte.x6c; Byte.x73; Byte.x70]).

(** A peer at address 7 connects and is welcomed. *)
Definition run_connect : list label :=
  [Conn (CaseDefault (Some (7, connect1))); Events 0%nat SelWrite].

(** Then its Data messages 3, 3 again and 2 arrive in this order, and the
    loop of the connection takes them one by one. *)
Definition run_reorder : list label :=
  run_connect ++
  [Conn (CaseDefault (Some (7, data1 3)));
   Conn (CaseDefault (Some (7, data1 3)));
   Conn (CaseDefault (Some (7, data1 2)));
   Events 0%nat SelRecv; Events 0%nat SelRecv; Events 0%nat SelRecv].

(** Three writes on a window of one: one message is in the window, two
    wait. *)
Definition run_writes : list label :=
  run_connect ++
  [CallWrite 0 None; CallWrite 0 None; CallWrite 0 None;
   Events 0%nat SelWrite; Events 0%nat SelWrite; Events 0%nat SelWrite].

(** The application reads twice after that. *)
Definition run_reorder_read : list label :=
  run_reorder ++ [CallRead ReadMessage; CallRead ReadMessage].


Definition world_after (ls : list label) : world :=
  default (NewServer params1) (run ls (NewServer params1)).

(** Every pointer in the table of the server points to a connection
    object. *)
Definition table_ok (w : world) : Prop :=
  ∀ k p, server.clients (srv w) !! k = Some p → is_Some (heap w !! p).

Definition ack1 (seqNum : Z) : Message := mkMessage MsgAck 0 seqNum 0 None.

(** One epoch in which the peer sends [message]: the ticker fires, the loop
    takes the tick, the datagram arrives and the loop takes it. *)
Definition epoch_with (message : Message) : list label :=
  [Tick; Events 0%nat SelEpoch;
   Conn (CaseDefault (Some (7, message))); Events 0%nat SelRecv].

(** The peer acknowledges in each of two epochs, and a third tick comes. *)
Definition run_acks : list label :=
  run_connect ++ epoch_with (ack1 1) ++ epoch_with (ack1 2)
  ++ [Tick; Events 0%nat SelEpoch].

(** The peer sends data in each of two epochs, and a third tick comes. *)
Definition run_datas : list label :=
  run_connect ++ epoch_with (data1 2) ++ epoch_with (data1 3)
  ++ [Tick; Events 0%nat SelEpoch].

(** A write, then an epoch tick: the message is still unacknowledged. *)
Definition run_write_tick : list label :=
  run_connect ++ [CallWrite 0 None; Events 0%nat SelWrite; Tick].

(** ** Silence of a peer *)

(** The label is a round of the loop of the connection at [p]. *)
Definition isRoundOf (p : nat) (l : label) : bool :=
  match l with
  | Events q _ => bool_decide (q = p)
  | _ => false
  end.


(** The label is a Data or Ack datagram that carries the connection id
    [id]: a message from the peer of that connection. *)
Definition isInboundOf (id : Z) (l : label) : bool :=
  match l with
  | Conn (CaseDefault (Some (_, message))) =>
      match Type_ message with
      | MsgConnect => false
      | _ => bool_decide (ConnID message = id)
      end
  | _ => false
  end.



(** A change of a connection object that keeps the lost flag and the
    silent-epoch counter. *)
Definition calm (c c' : client.t) : Prop :=
  client.isLost c' = client.isLost c ∧
  client.epochFiredCount c' = client.epochFiredCount c.

(** Two peers connect; the ticker fires three times and the loop of the
    first connection takes every tick. *)
Definition run_two_peers : list label :=
  [Conn (CaseDefault (Some (7, connect1))); Events 0%nat SelWrite;
   Conn (CaseDefault (Some (8, connect1))); Events 1%nat SelWrite;
   Tick; Events 0%nat SelEpoch; Tick; Events 0%nat SelEpoch;
   Tick; Events 0%nat SelEpoch].

(** Three epoch ticks in a row, nothing from the peer. *)
Definition run_silence : list label :=
  [Tick; Events 0%nat SelEpoch; Tick; Events 0%nat SelEpoch;
   Tick; Events 0%nat SelEpoch].

(** ** Further predicates *)

(** What the server keeps about its channels and its table: nothing is ever
    sent on [closeClientChan]; [isClosed] is 0 or 1; every connection ever
    built is in the table under its pointer; a completion signal, or a
    closed socket, means that [handleConn] has returned with an empty table;
    and the messages [Read] has taken followed by those waiting on
    [readChan] are the messages the loops have put there, in that order. *)
Definition sinv (w : world) : Prop :=
  server.closeClientChan (srv w) = [] ∧
  (server.isClosed (srv w) = 0 ∨ server.isClosed (srv w) = 1) ∧
  (∀ p, (p < length (heap w))%nat →
        server.clients (srv w) !! Z.of_nat p = Some p) ∧
  (server.completeCloseChan (srv w) ≠ [] ∨ connOpen w = false →
   demux w = false ∧ server.clients (srv w) = ∅) ∧
  taken w ++ server.readChan (srv w) = (readLog w).*2.

(** The label is a round of [handleConn]. *)
Definition isConn (l : label) : bool :=
  match l with
  | Conn _ => true
  | _ => false
  end.

(** The three steps of a shutdown: [Close] signals, [handleConn] takes the
    signal, [Close] takes the completion and closes the socket. *)
Definition run_close : list label :=
  [CallClose; Conn CaseClose; CallCloseWait].

(** What [Write] does to the connection it writes on (lines 221-224). *)
Definition writeData (connID : Z) (payload : bytes) (c : client.t) : client.t :=
  let c1 := client.set_seqNum (wrap32 (client.seqNum c + 1)) c in
  client.set_writeChan
    (client.writeChan c1
     ++ [NewData connID (client.seqNum c1) (len payload) payload]) c1.

(** The ways a step changes the connection object [c] at [p] into [c']:
    not at all; by close signals; by a datagram [handleConn] routes to it,
    which carries its id; by a [Write] under its id; by a round of its own
    loop. *)
Inductive touched (w : world) (l : label) (p : nat) (c : client.t)
  : client.t → Prop :=
| touched_not : touched w l p c c
| touched_signal n : touched w l p c (Nat.iter n signalClose c)
| touched_data a message :
    l = Conn (CaseDefault (Some (a, message))) →
    Type_ message = MsgData → ConnID message = client.connID c →
    touched w l p c (routeData message c)
| touched_ack a message :
    l = Conn (CaseDefault (Some (a, message))) →
    Type_ message = MsgAck → ConnID message = client.connID c →
    touched w l p c (routeAck message c)
| touched_write payload :
    l = CallWrite (client.connID c) payload →
    client.isConnClosed c = false →
    touched w l p c (writeData (client.connID c) payload c)
| touched_round sel c' es st :
    l = Events p sel → p ∈ loops w →
    handleEvents (tickPending w) sel c = Some (c', es, st) →
    touched w l p c c'.

(** Every message a connection holds on its send side carries the id of
    the connection. *)
Definition out_ok (c : client.t) : Prop :=
  Forall (fun m => ConnID m = client.connID c) (client.writeChan c) ∧
  Forall (fun m => ConnID m = client.connID c) (client.pendingSendMessages c) ∧
  (∀ k m, client.pendingReSendMessages c !! k = Some m →
          ConnID m = client.connID c).

(** Every datagram written was written to the address of the connection it
    was written for, and carries the id of that connection. *)
Definition wire_ok (w : world) : Prop :=
  ∀ p a m, (p, a, m) ∈ wire w →
           ∃ c, heap w !! p = Some c ∧ client.addr c = a ∧ ConnID m = client.connID c.

(** The label is a [Write] under the connection id [id]. *)
Definition isWriteOf (id : Z) (l : label) : bool :=
  match l with
  | CallWrite connID _ => bool_decide (connID = id)
  | _ => false
  end.

(** A write, anything but a write, and a second write on the same
    connection. *)
Definition run_between_writes : list label :=
  [Events 0%nat SelWrite; Tick; Events 0%nat SelEpoch;
   Conn (CaseDefault (Some (7, data1 2))); Events 0%nat SelRecv].



(** ** The ticker *)

(** The effects of a round stop the ticker; they take a tick. *)
Definition stops (es : list effect) : bool :=
  existsb (fun e => match e with TimerStop => true | _ => false end) es.

Definition takes (es : list effect) : bool :=
  existsb (fun e => match e with TickTaken => true | _ => false end) es.

(** The label is the ticker firing; it is a round of some loop that takes
    the [epochTimer.C] branch. *)
Definition isTick (l : label) : bool :=
  match l with Tick => true | _ => false end.

Definition isEpochRound (l : label) : bool :=
  match l with Events _ SelEpoch => true | _ => false end.

(** The number of rounds in a run, of whatever connection, that take the
    [epochTimer.C] branch. *)
Fixpoint epochRounds (ls : list label) : nat :=
  match ls with
  | [] => 0
  | l :: ls' => if isEpochRound l then S (epochRounds ls') else epochRounds ls'
  end.

(** When a connection is lost the ticker is stopped. *)
Definition tinv (w : world) : Prop :=
  ∀ p c, heap w !! p = Some c → client.isLost c ≠ 0 → tickerStopped w = true.

(** * Properties *)

(** ** The methods of a connection *)

#[local] Set Warnings "-clear-no-such-hyp".

Ltac cfields c := destruct c; cbn in *.

Ltac finish :=
  repeat split; intros; try done; try lia;
  try (rewrite ?Z.sub_diag; cbn; rewrite ?app_nil_r; done);
  try naive_solver.

Lemma wrap32_small z : - 2 ^ 31 ≤ z < 2 ^ 31 → wrap32 z = z.
Proof. intros H. unfold wrap32. rewrite Z.mod_small; lia. Qed.

Lemma slideWindowAdvance_frame pending c c' sent :
  client.slideWindowAdvance pending c = (c', sent) → c' = with_send c' c.
Proof.
  revert c c' sent. induction pending as [|m rest IH]; intros c c' sent H; cbn in H.
  - inversion H; subst. by cfields c.
  - destruct (_ <? _).
    + destruct (client.slideWindowAdvance rest _) as [c4 sent'] eqn:E.
      inversion H; subst. apply IH in E. etrans; [exact E|]. by cfields c.
    + inversion H; subst. by cfields c.
Qed.

Lemma slideWindowAdvance_window pending c c' sent :
  client.slideWindowAdvance pending c = (c', sent) →
  window_ok c → window_ok c'.
Proof.
  revert c c' sent. induction pending as [|m rest IH]; intros c c' sent H Hw; cbn in H.
  - inversion H; subst. by cfields c.
  - destruct (_ <? _) eqn:Hlt.
    + destruct (client.slideWindowAdvance rest _) as [c4 sent'] eqn:E.
      inversion H; subst. eapply IH; [exact E|].
      apply Z.ltb_lt in Hlt. unfold window_ok in *. cfields c.
      rewrite length_app. cbn. lia.
    + inversion H; subst. by cfields c.
Qed.

Lemma advanceFront_length unAcked window :
  (length (client.advanceFront unAcked window) ≤ length window)%nat.
Proof.
  induction window as [|k rest IH]; cbn; [lia|].
  destruct (default false _); cbn; lia.
Qed.

Lemma processAckMessage_frame c msg c' sent :
  client.processAckMessage c msg = (c', sent) → c' = with_send c' c.
Proof.
  unfold client.processAckMessage, client.processPendingSendMessages.
  intros H. repeat case_match; try (inversion H; subst; by cfields c).
  apply slideWindowAdvance_frame in H. etrans; [exact H|]. by cfields c.
Qed.

Lemma processAckMessage_window c msg c' sent :
  client.processAckMessage c msg = (c', sent) →
  window_ok c → window_ok c'.
Proof.
  unfold client.processAckMessage, client.processPendingSendMessages, window_ok.
  intros H Hw. cfields c.
  destruct slideWindow as [|k rest]; [by inversion H; subst|].
  destruct (k =? SeqNum msg); [|by inversion H; subst].
  eapply slideWindowAdvance_window; [exact H|].
  unfold window_ok. cbn [client.slideWindow client.windowSize client.set_slideWindow].
  etrans; [|exact Hw]. apply inj_le, advanceFront_length.
Qed.

Lemma reassemble_frame rounds c :
  client.reassemble rounds c = with_recv (client.reassemble rounds c) c.
Proof.
  revert c. induction rounds as [|n IH]; intros c; cbn.
  - by cfields c.
  - destruct (_ !! _) as [m|]; [|by cfields c].
    etrans; [apply IH|]. by cfields c.
Qed.

(** The queue is fed in sequence-number order, starting right after the last
    number queued. *)
Lemma reassemble_rel rounds c :
  pending_ok c →
  pending_ok (client.reassemble rounds c) ∧
  recv_rel c (client.reassemble rounds c) [].
Proof.
  revert c. induction rounds as [|n IH]; intros c Hp; cbn.
  - split; [done|]. unfold recv_rel. split; [lia|].
    rewrite Z.sub_diag. cbn. by rewrite app_nil_r.
  - destruct (_ !! _) as [m|] eqn:Hm.
    + destruct (Hp _ _ Hm) as [Hseq _].
      match goal with |- context [client.reassemble n ?x] => set (c1 := x) end.
      assert (pending_ok c1) as Hp1.
      { intros k m' Hk. subst c1. cfields c.
        apply lookup_delete_Some in Hk as [Hne Hk].
        destruct (Hp _ _ Hk) as [? ?]; cbn in *. split; [done|lia]. }
      destruct (IH c1 Hp1) as [Hp' [Hle Hrel]]. split; [done|].
      unfold recv_rel in *. subst c1. cfields c. split; [lia|].
      rewrite Hrel, fmap_app. cbn. rewrite Hseq, <- app_assoc. f_equal.
      rewrite (seqZ_cons (lastProcessedMessageSeqNum + 1)); [|lia].
      cbn. do 2 f_equal; lia.
    + split; [done|]. unfold recv_rel. split; [lia|].
      rewrite Z.sub_diag. cbn. by rewrite app_nil_r.
Qed.

(** The bound on the rounds is enough: the loop stops because the next
    sequence number is missing, not because the rounds ran out. *)
Lemma reassemble_complete rounds c :
  (size (client.pendingReceivedMessages c) ≤ rounds)%nat →
  client.pendingReceivedMessages (client.reassemble rounds c)
    !! (client.lastProcessedMessageSeqNum (client.reassemble rounds c) + 1) = None.
Proof.
  revert c. induction rounds as [|n IH]; intros c Hsz; cbn.
  - assert (client.pendingReceivedMessages c = ∅) as ->; [|done].
    apply map_size_empty_iff. lia.
  - destruct (client.pendingReceivedMessages c
               !! (client.lastProcessedMessageSeqNum c + 1)) as [m|] eqn:Hm; [|done].
    apply IH. cfields c. rewrite map_size_delete, Hm. lia.
Qed.

Lemma reassemble_msgs (P : Message → Prop) rounds c :
  Forall P (client.pendingReceivedMessageQueue c) →
  (∀ k m, client.pendingReceivedMessages c !! k = Some m → P m) →
  Forall P (client.pendingReceivedMessageQueue (client.reassemble rounds c)) ∧
  (∀ k m, client.pendingReceivedMessages (client.reassemble rounds c) !! k = Some m → P m).
Proof.
  revert c. induction rounds as [|n IH]; intros c Hq Hp; cbn; [done|].
  destruct (_ !! _) as [m|] eqn:Hm; [|done].
  apply IH; cfields c.
  - apply Forall_app. split; [done|]. repeat constructor. eauto.
  - intros k m' Hk. apply lookup_delete_Some in Hk as [_ Hk]. eauto.
Qed.

Lemma processReceivedMessage_frame c msg :
  client.processReceivedMessage c msg
  = with_recv (client.processReceivedMessage c msg) c.
Proof.
  unfold client.processReceivedMessage. etrans; [apply reassemble_frame|].
  destruct (_ <=? _); by cfields c.
Qed.

Lemma processReceivedMessage_rel c msg :
  pending_ok c →
  pending_ok (client.processReceivedMessage c msg) ∧
  recv_rel c (client.processReceivedMessage c msg) [].
Proof.
  intros Hp. unfold client.processReceivedMessage.
  match goal with |- context [client.reassemble ?n ?x] => set (c2 := x) end.
  assert (pending_ok c2) as Hp2.
  { subst c2. destruct (_ <=? _) eqn:Hle.
    - intros k m Hk. cfields c. eauto.
    - apply Z.leb_gt in Hle. intros k m Hk. cfields c.
      apply lookup_insert_Some in Hk as [[<- <-]|[_ Hk]]; [done|eauto]. }
  destruct (reassemble_rel (size (client.pendingReceivedMessages c2)) c2 Hp2)
    as [Hp' Hrel].
  split; [done|]. unfold recv_rel in *.
  replace (client.lastProcessedMessageSeqNum c2)
    with (client.lastProcessedMessageSeqNum c) in Hrel
    by (subst c2; destruct (_ <=? _); by cfields c).
  replace (client.pendingReceivedMessageQueue c2)
    with (client.pendingReceivedMessageQueue c) in Hrel
    by (subst c2; destruct (_ <=? _); by cfields c).
  done.
Qed.

Lemma processReceivedMessage_msgs (P : Message → Prop) c msg :
  P msg →
  Forall P (client.pendingReceivedMessageQueue c) →
  (∀ k m, client.pendingReceivedMessages c !! k = Some m → P m) →
  Forall P (client.pendingReceivedMessageQueue (client.processReceivedMessage c msg)) ∧
  (∀ k m, client.pendingReceivedMessages (client.processReceivedMessage c msg) !! k
          = Some m → P m).
Proof.
  intros Hmsg Hq Hp. unfold client.processReceivedMessage.
  apply reassemble_msgs.
  - destruct (_ <=? _); by cfields c.
  - destruct (_ <=? _); cfields c; [eauto|].
    intros k m Hk. apply lookup_insert_Some in Hk as [[_ <-]|[_ Hk]]; eauto.
Qed.

(** After a Data message is processed nothing deliverable is left behind. *)
Lemma processReceivedMessage_complete c msg :
  client.pendingReceivedMessages (client.processReceivedMessage c msg)
    !! (client.lastProcessedMessageSeqNum (client.processReceivedMessage c msg) + 1)
  = None.
Proof. unfold client.processReceivedMessage. by apply reassemble_complete. Qed.

(** ** The event loop *)

Lemma reads_Send sent : reads (Send <$> sent) = [].
Proof. induction sent; cbn; auto. Qed.

Lemma reads_ToReadChan q : reads (ToReadChan <$> q) = q.
Proof. induction q; cbn; [done|]. unfold reads in IHq. by rewrite IHq. Qed.

Lemma reads_app es1 es2 : reads (es1 ++ es2) = reads es1 ++ reads es2.
Proof. apply omap_app. Qed.

Lemma sends_app es1 es2 : sends (es1 ++ es2) = sends es1 ++ sends es2.
Proof. apply omap_app. Qed.

Lemma sends_Send sent : sends (Send <$> sent) = sent.
Proof. induction sent; cbn; [done|]. unfold sends in IHsent. by rewrite IHsent. Qed.

Lemma sends_ToReadChan q : sends (ToReadChan <$> q) = [].
Proof. induction q; cbn; auto. Qed.

Lemma drainQueue_cons message rest c :
  drainQueue (message :: rest) c
  = (client.set_pendingReceivedMessageQueue [] c, ToReadChan <$> (message :: rest)).
Proof.
  revert message c. induction rest as [|m' rest IH]; intros message c; [done|].
  change (drainQueue (message :: m' :: rest) c)
    with (let '(c2, es) :=
            drainQueue (m' :: rest)
              (client.set_pendingReceivedMessageQueue (m' :: rest) c) in
          (c2, ToReadChan message :: es)).
  rewrite IH. by cfields c.
Qed.

Lemma prepareReadMessage_eq c :
  prepareReadMessage c
  = (client.set_pendingReceivedMessageQueue [] c,
     ToReadChan <$> client.pendingReceivedMessageQueue c).
Proof.
  unfold prepareReadMessage.
  destruct (client.pendingReceivedMessageQueue c) as [|m rest] eqn:Hq.
  - cbn. f_equal. cfields c. by subst.
  - apply drainQueue_cons.
Qed.

Lemma recv_rel_refl c : recv_rel c c [].
Proof.
  unfold recv_rel. split; [lia|]. rewrite Z.sub_diag. cbn. by rewrite app_nil_r.
Qed.

Lemma recv_rel_same c c' :
  client.lastProcessedMessageSeqNum c' = client.lastProcessedMessageSeqNum c →
  client.pendingReceivedMessageQueue c' = client.pendingReceivedMessageQueue c →
  recv_rel c c' [].
Proof.
  intros Hl Hq. unfold recv_rel. rewrite Hl, Hq. apply recv_rel_refl.
Qed.

Lemma onWriteChan_ok params c c' es st :
  cinv params c → client.isLost c = 0 →
  client.pendingReceivedMessageQueue c = [] →
  onWriteChan c = Some (c', es, st) →
  round_ok params c c' es st ∧
  client.epochFiredCount c' = client.epochFiredCount c ∧
  client.isLost c' = 0.
Proof.
  intros (Hcl & Hlost & Hws & Hel & Hwin & Hpend & Hmsgs & Hep) Hl Hq H.
  unfold onWriteChan in H.
  destruct (client.writeChan c) as [|message rest] eqn:Hwc; [done|].
  assert (client.isConnClosed (client.set_writeChan rest c) = false) as Hncl.
  { unfold client.isConnClosed. cfields c. by subst. }
  rewrite Hncl in H. cbn [negb] in H.
  destruct (Type_ message).
  - inversion H; subst. unfold round_ok, cinv, window_ok, pending_ok, msgs_ok,
      epoch_ok, recv_rel in *. cfields c. subst. cbn.
    finish.
  - destruct (client.processPendingSendMessages _) as [c4 sent] eqn:E.
    inversion H; subst.
    pose proof (slideWindowAdvance_frame _ _ _ _ E) as Hf.
    assert (client.windowSize c' = WindowSize params) as Hws'.
    { rewrite Hf. cbn. done. }
    assert (0 ≤ WindowSize params →
            Z.of_nat (length (client.slideWindow c')) ≤ WindowSize params) as Hwin'.
    { intros H0. rewrite <- Hws'. eapply slideWindowAdvance_window; [exact E|].
      specialize (Hwin H0). unfold window_ok in *. by cfields c. }
    unfold round_ok, cinv, pending_ok, msgs_ok, epoch_ok, recv_rel.
    rewrite reads_Send, Hf. clear Hf E. unfold window_ok, pending_ok, msgs_ok, epoch_ok in *.
    cfields c. subst. cbn.
    finish.
  - inversion H; subst. unfold round_ok, cinv, window_ok, pending_ok, msgs_ok,
      epoch_ok, recv_rel in *. cfields c. subst. cbn.
    finish.
Qed.

Arguments wrap32 : simpl never.

Lemma onEpoch_ok params tick c c' es st :
  cinv params c → client.isLost c = 0 →
  client.pendingReceivedMessageQueue c = [] →
  onEpoch tick c = Some (c', es, st) →
  round_ok params c c' es st ∧
  tick = true ∧
  client.epochFiredCount c' = wrap32 (client.epochFiredCount c + 1) ∧
  (0 ≤ EpochLimit params < 2 ^ 31 - 1 →
   client.epochFiredCount c' = client.epochFiredCount c + 1) ∧
  (st = Looping →
   client.isLost c' = 0 ∧ client.epochFiredCount c' ≤ client.epochLimit c').
Proof.
  intros (Hcl & Hlost & Hws & Hel & Hwin & Hpend & Hmsgs & Hep) Hl Hq H.
  unfold onEpoch in H. destruct tick; [|done]. cbn [negb] in H.
  assert (0 ≤ EpochLimit params < 2 ^ 31 - 1 →
          wrap32 (client.epochFiredCount c + 1) = client.epochFiredCount c + 1)
    as Hwrap.
  { intros Hr. destruct (Hep Hr) as [Hb Hle]. specialize (Hle Hl).
    apply wrap32_small. lia. }
  destruct (_ >? _) eqn:Hgt; inversion H; subst; clear H.
  - unfold round_ok, cinv, window_ok, pending_ok, msgs_ok, epoch_ok, recv_rel in *.
    cfields c. subst. cbn. split_and!; try done; try lia; auto; finish.
  - assert (client.epochFiredCount
              (client.set_epochFiredCount (wrap32 (client.epochFiredCount c + 1)) c)
            ≤ client.epochLimit c) as Hle.
    { cfields c. lia. }
    assert (∀ l x, reads (TickTaken :: (Send <$> l) ++ [Send x]) = []) as Hr.
    { intros l x. change (reads ((Send <$> l) ++ [Send x]) = []).
      by rewrite reads_app, reads_Send. }
    unfold round_ok. rewrite Hr.
    unfold cinv, window_ok, pending_ok, msgs_ok, epoch_ok, recv_rel in *.
    cfields c. subst. cbn. split_and!; try done; try lia; auto; finish.
Qed.

Lemma onReceived_ok params c c' es st :
  cinv params c → client.isLost c = 0 →
  client.pendingReceivedMessageQueue c = [] →
  onReceived c = Some (c', es, st) →
  round_ok params c c' es st ∧
  client.epochFiredCount c' = client.epochFiredCount c ∧
  client.isLost c' = 0.
Proof.
  intros (Hcl & Hlost & Hws & Hel & Hwin & Hpend & Hmsgs & Hep) Hl Hq H.
  unfold onReceived in H.
  destruct (client.receivedMessageChan c) as [|msg rest] eqn:Hrc; [done|].
  destruct Hmsgs as (Hm1 & Hm2 & Hm3).
  rewrite Hrc in Hm1. apply Forall_cons in Hm1 as [Hmsg Hrest].
  set (c0 := client.set_receivedMessageChan rest c) in *.
  destruct (Type_ msg) eqn:Hty.
  - (* a Connect message: nothing to process *)
    assert (client.checkCloseComplete c0 = false) as Hcc.
    { unfold client.checkCloseComplete. subst c0. cfields c. by subst. }
    rewrite Hcc, prepareReadMessage_eq in H. inversion H; subst; clear H.
    unfold round_ok, cinv, window_ok, pending_ok, msgs_ok, epoch_ok, recv_rel in *.
    cfields c. subst. cbn. finish.
  - (* a Data message *)
    set (c2 := client.processReceivedMessage c0 msg) in *.
    pose proof (processReceivedMessage_frame c0 msg) as Hf. fold c2 in Hf.
    assert (pending_ok c0) as Hp0 by (subst c0; by cfields c).
    destruct (processReceivedMessage_rel c0 msg Hp0) as [Hp2 Hrel]. fold c2 in Hp2, Hrel.
    destruct (processReceivedMessage_msgs
                (fun m => ConnID m = client.connID c) c0 msg Hmsg) as [Hq2 Hpm2].
    { subst c0. cfields c. by subst. }
    { subst c0. by cfields c. }
    fold c2 in Hq2, Hpm2. clearbody c2.
    assert (client.checkCloseComplete c2 = false) as Hcc.
    { unfold client.checkCloseComplete. rewrite Hf. subst c0. cfields c. by subst. }
    rewrite Hcc, prepareReadMessage_eq in H. inversion H; subst c' es st; clear H.
    unfold round_ok. cbn [fmap list_fmap app]. rewrite reads_ToReadChan.
    split_and!.
    + unfold cinv. split_and!.
      * rewrite Hf. subst c0. by cfields c.
      * rewrite Hf. subst c0. by cfields c.
      * rewrite Hf. subst c0. by cfields c.
      * rewrite Hf. subst c0. by cfields c.
      * intros H0. specialize (Hwin H0). unfold window_ok in *.
        rewrite Hf. subst c0. by cfields c.
      * intros k m Hk. by apply (Hp2 k m).
      * unfold msgs_ok. split_and!.
        -- rewrite Hf. subst c0. by cfields c.
        -- done.
        -- intros k m Hk. etrans; [by apply (Hpm2 k m)|].
           rewrite Hf. subst c0. by cfields c.
      * intros Hr. specialize (Hep Hr). unfold epoch_ok in *.
        rewrite Hf. subst c0. by cfields c.
    + rewrite Hf. subst c0. by cfields c.
    + rewrite Hf. subst c0. by cfields c.
    + unfold recv_rel in *. destruct Hrel as [Hle Heq]. cbn in Heq.
      replace (client.lastProcessedMessageSeqNum c0)
        with (client.lastProcessedMessageSeqNum c) in * by (subst c0; by cfields c).
      replace (client.pendingReceivedMessageQueue c0)
        with (client.pendingReceivedMessageQueue c) in * by (subst c0; by cfields c).
      split; [done|]. cbn. by rewrite app_nil_r.
    + done.
    + split; [done|]. intros Hl1. exfalso. revert Hl1. rewrite Hf. subst c0.
      cfields c. lia.
    + done.
    + rewrite Hf. subst c0. by cfields c.
    + rewrite Hf. subst c0. by cfields c.
  - (* an Ack message *)
    destruct (client.processAckMessage c0 msg) as [c4 sent] eqn:E.
    pose proof (processAckMessage_frame _ _ _ _ E) as Hf.
    assert (client.windowSize c4 = WindowSize params) as Hws'.
    { rewrite Hf. subst c0. by cfields c. }
    assert (0 ≤ WindowSize params →
            Z.of_nat (length (client.slideWindow c4)) ≤ WindowSize params) as Hwin'.
    { intros H0. rewrite <- Hws'. eapply processAckMessage_window; [exact E|].
      specialize (Hwin H0). unfold window_ok in *. subst c0. by cfields c. }
    assert (client.checkCloseComplete c4 = false) as Hcc.
    { unfold client.checkCloseComplete. rewrite Hf. subst c0. cfields c. by subst. }
    rewrite Hcc, prepareReadMessage_eq in H. inversion H; subst c' es st; clear H.
    assert (client.pendingReceivedMessageQueue c4 = []) as Hq4.
    { rewrite Hf. subst c0. by cfields c. }
    unfold round_ok. rewrite Hq4, reads_app, reads_Send. cbn [fmap list_fmap app reads omap list_omap].
    unfold cinv, window_ok, pending_ok, msgs_ok, epoch_ok, recv_rel.
    clear E Hcc. revert Hwin' Hq4 Hws'. rewrite Hf. clear Hf.
    unfold window_ok, pending_ok, msgs_ok, epoch_ok in *. subst c0.
    cfields c. subst. cbn. intros. finish.
Qed.

Lemma recv_rel_trans c c1 c2 out1 out2 :
  recv_rel c c1 out1 → recv_rel c1 c2 out2 → recv_rel c c2 (out1 ++ out2).
Proof.
  unfold recv_rel. intros [Hle1 H1] [Hle2 H2]. split; [lia|].
  rewrite fmap_app, <- app_assoc, H2, app_assoc, H1, <- app_assoc. f_equal.
  replace (client.lastProcessedMessageSeqNum c2 - client.lastProcessedMessageSeqNum c)
    with ((client.lastProcessedMessageSeqNum c1 - client.lastProcessedMessageSeqNum c)
          + (client.lastProcessedMessageSeqNum c2 - client.lastProcessedMessageSeqNum c1))
    by lia.
  rewrite seqZ_app by lia. do 2 f_equal. lia.
Qed.

Lemma handleEvents_head c :
  match client.pendingReceivedMessageQueue c with
  | [] => (c, [])
  | _ :: _ => prepareReadMessage c
  end
  = (client.set_pendingReceivedMessageQueue [] c,
     ToReadChan <$> client.pendingReceivedMessageQueue c).
Proof.
  rewrite <- prepareReadMessage_eq. unfold prepareReadMessage.
  by destruct (client.pendingReceivedMessageQueue c).
Qed.

Lemma handleEvents_ok params tick sel c c' es st :
  cinv params c →
  handleEvents tick sel c = Some (c', es, st) →
  round_ok params c c' es st ∧
  (client.isLost c = 0 →
   match sel with
   | SelEpoch =>
       tick = true ∧
       client.epochFiredCount c' = wrap32 (client.epochFiredCount c + 1) ∧
       (0 ≤ EpochLimit params < 2 ^ 31 - 1 →
        client.epochFiredCount c' = client.epochFiredCount c + 1)
   | _ => client.epochFiredCount c' = client.epochFiredCount c
   end ∧
   (st = Looping →
    client.isLost c' = 0 ∧
    (sel = SelEpoch → client.epochFiredCount c' ≤ client.epochLimit c'))).
Proof.
  intros Hinv H. unfold handleEvents in H. rewrite handleEvents_head in H.
  set (c0 := client.set_pendingReceivedMessageQueue [] c) in *.
  assert (cinv params c0) as Hinv0.
  { destruct Hinv as (Hcl & Hlost & Hws & Hel & Hwin & Hpend & Hmsgs & Hep).
    unfold cinv, window_ok, pending_ok, msgs_ok, epoch_ok in *. subst c0.
    cfields c. finish. }
  assert (recv_rel c c0 (client.pendingReceivedMessageQueue c)) as Hrel0.
  { unfold recv_rel. subst c0. cfields c. split; [lia|].
    rewrite Z.sub_diag. done. }
  assert (Forall (fun m => ConnID m = client.connID c)
                 (client.pendingReceivedMessageQueue c)) as Hq0.
  { by destruct Hinv as (_ & _ & _ & _ & _ & _ & (_ & ? & _) & _). }
  assert (client.isLost c0 = client.isLost c
          ∧ client.connID c0 = client.connID c
          ∧ client.addr c0 = client.addr c
          ∧ client.epochFiredCount c0 = client.epochFiredCount c
          ∧ client.pendingReceivedMessageQueue c0 = []) as (E1 & E2 & E3 & E4 & E5).
  { subst c0. by cfields c. }
  clearbody c0.
  destruct (client.isLost c0 =? 0) eqn:Hl0; cbn [negb] in H.
  - apply Z.eqb_eq in Hl0.
    destruct (match sel with
              | SelWrite => onWriteChan c0
              | SelEpoch => onEpoch tick c0
              | SelRecv => onReceived c0
              end) as [[[c1 es1] st1]|] eqn:Hb; [|done].
    cbn in H. inversion H; subst c' es st; clear H.
    assert (round_ok params c0 c1 es1 st1 ∧
            match sel with
            | SelEpoch =>
                tick = true ∧
                client.epochFiredCount c1 = wrap32 (client.epochFiredCount c0 + 1) ∧
                (0 ≤ EpochLimit params < 2 ^ 31 - 1 →
                 client.epochFiredCount c1 = client.epochFiredCount c0 + 1)
            | _ => client.epochFiredCount c1 = client.epochFiredCount c0
            end ∧
            (st1 = Looping →
             client.isLost c1 = 0 ∧
             (sel = SelEpoch → client.epochFiredCount c1 ≤ client.epochLimit c1)))
      as (Hround & Hcount & Hloop).
    { destruct sel.
      - destruct (onWriteChan_ok _ _ _ _ _ Hinv0 Hl0 E5 Hb) as (? & ? & ?). done.
      - destruct (onEpoch_ok _ _ _ _ _ _ Hinv0 Hl0 E5 Hb) as (? & ? & ? & ? & ?).
        split_and!; try done; naive_solver.
      - destruct (onReceived_ok _ _ _ _ _ Hinv0 Hl0 E5 Hb) as (? & ? & ?). done. }
    destruct Hround as (R1 & R2 & R3 & R4 & R5 & R6 & R7).
    split.
    + unfold round_ok. split_and!; try done; try congruence.
      * rewrite reads_app, reads_ToReadChan. eapply recv_rel_trans; eauto.
      * rewrite reads_app, reads_ToReadChan. apply Forall_app. split; [done|].
        by rewrite <- E2.
    + intros _. rewrite <- E4. done.
  - apply Z.eqb_neq in Hl0. inversion H; subst c' es st; clear H.
    destruct Hinv0 as (Hcl & Hlost & Hws & Hel & Hwin & Hpend & Hmsgs & Hep).
    split; [|intros; congruence].
    unfold round_ok. rewrite reads_ToReadChan.
    unfold cinv, window_ok, pending_ok, msgs_ok, epoch_ok, recv_rel in *.
    cfields c0. subst. split_and!; try done; try lia; finish.
Qed.

(** ** The world *)

Lemma foldl_applyEffect p a es w :
  let w' := foldl (applyEffect p a) w es in
  heap w' = heap w ∧ loops w' = loops w ∧ demux w' = demux w ∧
  connOpen w' = connOpen w ∧
  readLog w' = readLog w ++ ((fun m => (p, m)) <$> reads es) ∧
  wire w' = wire w ++ ((fun m => (p, a, m)) <$> sends es) ∧
  srv w' = server.set_readChan (server.readChan (srv w) ++ reads es) (srv w) ∧
  taken w' = taken w.
Proof.
  revert w. induction es as [|e es IH]; intros w; cbn.
  - rewrite !app_nil_r. split_and!; try done. by destruct w as [[] ? ? ? ? ? ? ? ? ?].
  - destruct (IH (applyEffect p a w e)) as (H1 & H2 & H3 & H4 & H5 & H6 & H7 & H8).
    cbn zeta in *. rewrite H1, H2, H3, H4, H5, H6, H7, H8. clear.
    destruct e; destruct w as [[] ? ? ? ? ? ? ? ? ?]; cbn;
      rewrite <- ?app_assoc; done.
Qed.

Lemma quiet_refl params c : quiet params c c.
Proof. by unfold quiet. Qed.

Lemma quiet_trans params c1 c2 c3 :
  quiet params c1 c2 → quiet params c2 c3 → quiet params c1 c3.
Proof. unfold quiet. intros (?&?&?&?&?) (?&?&?&?&?). split_and!; try congruence. auto. Qed.

Lemma quiet_signalClose params c : quiet params c (signalClose c).
Proof.
  unfold quiet, signalClose. split_and!; by cfields c.
Qed.

Lemma quiet_routeAck params message c :
  ConnID message = client.connID c → quiet params c (routeAck message c).
Proof.
  intros Hid. unfold quiet, routeAck. split_and!; try by cfields c.
  unfold cinv, window_ok, pending_ok, msgs_ok, epoch_ok. cfields c.
  intros (?&?&?&?&?&?&(?&?&?)&?). split_and!; try done.
  apply Forall_app. split; [done|]. by repeat constructor.
Qed.

Lemma quiet_routeData params message c :
  ConnID message = client.connID c → quiet params c (routeData message c).
Proof.
  intros Hid. unfold quiet, routeData. split_and!; try by cfields c.
  unfold cinv, window_ok, pending_ok, msgs_ok, epoch_ok. cfields c.
  intros (?&?&?&?&?&?&(?&?&?)&?). split_and!; try done.
  - apply Forall_app. split; [done|]. by repeat constructor.
  - intros Hr. lia.
Qed.

Lemma quiet_write params connID payload c :
  quiet params c
    (client.set_writeChan
       (client.writeChan (client.set_seqNum (wrap32 (client.seqNum c + 1)) c)
        ++ [NewData connID
              (client.seqNum (client.set_seqNum (wrap32 (client.seqNum c + 1)) c))
              (len payload) payload])
       (client.set_seqNum (wrap32 (client.seqNum c + 1)) c)).
Proof.
  unfold quiet. split_and!; by cfields c.
Qed.

Lemma delivered_eq p w w' : readLog w' = readLog w → delivered p w' = delivered p w.
Proof. unfold delivered. by intros ->. Qed.

Lemma filter_none {A} (P : A → Prop) `{!∀ x, Decision (P x)} (l : list A) :
  Forall (fun x => ¬ P x) l → filter P l = [].
Proof.
  induction 1 as [|x l Hx _ IH]; [done|]. by rewrite filter_cons_False.
Qed.

Lemma filter_all {A} (P : A → Prop) `{!∀ x, Decision (P x)} (l : list A) :
  Forall P l → filter P l = l.
Proof.
  induction 1 as [|x l Hx _ IH]; [done|]. by rewrite filter_cons_True, IH.
Qed.

Lemma delivered_fresh p w : (∀ x, x ∈ readLog w → x.1 ≠ p) → delivered p w = [].
Proof.
  unfold delivered. induction (readLog w) as [|x l IH]; intros H; [done|].
  rewrite filter_cons_False by (apply H; left).
  apply IH. intros y Hy. apply H. by right.
Qed.

Lemma heap_ok_quiet params w w' p c c' :
  quiet params c c' → loops w' = loops w → readLog w' = readLog w →
  heap_ok params w p c → heap_ok params w' p c'.
Proof.
  intros (Q1 & Q2 & Q3 & Q4 & Q5) Hloops Hlog (H1 & H2 & H3 & H4 & H5 & H6).
  unfold heap_ok. rewrite (delivered_eq p w w' Hlog), Hloops, Q1, Q2, Q3, Q4.
  split_and!; auto.
Qed.

(** A step that changes connection objects quietly, and neither the set of
    running loops nor the log, keeps the invariant. *)
Lemma winv_update params w w' :
  winv params w →
  server.nextClientID (srv w') = server.nextClientID (srv w) →
  server.windowSize (srv w') = server.windowSize (srv w) →
  server.epochLimit (srv w') = server.epochLimit (srv w) →
  (∀ k p, server.clients (srv w') !! k = Some p →
          server.clients (srv w) !! k = Some p) →
  taken w' ++ server.readChan (srv w') = taken w ++ server.readChan (srv w) →
  length (heap w') = length (heap w) →
  loops w' = loops w →
  readLog w' = readLog w →
  (∀ p c', heap w' !! p = Some c' →
           ∃ c, heap w !! p = Some c ∧ quiet params c c') →
  winv params w'.
Proof.
  intros (I1 & I2 & I3 & I4 & I5 & I6 & I7 & I8 & I9) E1 E2 E3 Hcl Hrc Hlen Hloops Hlog Hq.
  unfold winv. rewrite E1, E2, E3, Hlen, Hloops, Hlog, Hrc. split_and!; auto.
  - intros p c' Hp. destruct (Hq p c' Hp) as (c & Hc & Hqc).
    eapply heap_ok_quiet; eauto.
  - intros p Hp. rewrite (delivered_eq p w w' Hlog). auto.
Qed.

Lemma alter_quiet params f q (h : list client.t) :
  (∀ c, h !! q = Some c → quiet params c (f c)) →
  ∀ p c', alter f q h !! p = Some c' → ∃ c, h !! p = Some c ∧ quiet params c c'.
Proof.
  intros Hf p c' Hp. destruct (decide (q = p)) as [->|Hne].
  - rewrite list_lookup_alter_eq in Hp.
    destruct (h !! p) as [c|] eqn:Hc; [|done]. cbn in Hp. inversion Hp; subst.
    exists c. split; [done|]. by apply Hf.
  - rewrite list_lookup_alter_ne in Hp by done. exists c'. split; [done|].
    apply quiet_refl.
Qed.

Lemma insert_quiet params q c0 c1 (h : list client.t) :
  h !! q = Some c0 → quiet params c0 c1 →
  ∀ p c', <[q := c1]> h !! p = Some c' → ∃ c, h !! p = Some c ∧ quiet params c c'.
Proof.
  intros Hq Hquiet p c' Hp. destruct (decide (q = p)) as [->|Hne].
  - rewrite list_lookup_insert_eq in Hp by (by eapply lookup_lt_Some).
    inversion Hp; subst. eauto.
  - rewrite list_lookup_insert_ne in Hp by done. exists c'. split; [done|].
    apply quiet_refl.
Qed.

Lemma same_heap_quiet params (h : list client.t) :
  ∀ p c', h !! p = Some c' → ∃ c, h !! p = Some c ∧ quiet params c c'.
Proof. intros p c' Hp. exists c'. split; [done|]. apply quiet_refl. Qed.

Lemma NewServer_winv params : winv params (NewServer params).
Proof.
  unfold winv, NewServer. cbn. split_and!; try done; set_solver.
Qed.

Lemma Tick_winv params w :
  winv params w → winv params (set_tickPending true w).
Proof.
  intros Hinv. eapply winv_update; eauto. apply same_heap_quiet.
Qed.

(** The connection a datagram is routed to has the id the datagram
    carries. *)
Lemma winv_lookup params w k p :
  winv params w → server.clients (srv w) !! k = Some p →
  ∃ c, heap w !! p = Some c ∧ client.connID c = k ∧ k = Z.of_nat p.
Proof.
  intros (I1 & I2 & I3 & I4 & I5 & I6 & I7 & I8 & I9) Hk.
  destruct (I4 k p Hk) as [-> Hlt].
  destruct (lookup_lt_is_Some_2 _ _ Hlt) as [c Hc]. exists c.
  split; [done|]. split; [|done]. by destruct (I8 p c Hc).
Qed.

Lemma onDatagram_winv params a message w :
  winv params w → winv params (onDatagram a message w).
Proof.
  intros Hinv. unfold onDatagram. destruct (Type_ message).
  - (* Connect *)
    destruct (server.isConnClosed (srv w)); [done|].
    destruct Hinv as (I1 & I2 & I3 & I4 & I5 & I6 & I7 & I8 & I9).
    unfold winv. cbn. rewrite length_app. cbn. split_and!; try done.
    + rewrite I1. lia.
    + intros k p Hk. apply lookup_insert_Some in Hk as [[<- <-]|[Hne Hk]].
      * split; [done|lia].
      * destruct (I4 k p Hk). split; [done|lia].
    + intros p Hp. apply elem_of_union in Hp as [Hp|Hp].
      * apply elem_of_singleton in Hp. lia.
      * specialize (I5 p Hp). lia.
    + intros x Hx. specialize (I6 x Hx). lia.
    + eapply Forall_impl; [exact I7|]. cbn. intros; lia.
    + intros p c Hp. apply lookup_app_Some in Hp as [Hp|[Hge Hp]].
      * destruct (I8 p c Hp) as (H1 & H2 & H3 & H4 & H5 & H6).
        pose proof (lookup_lt_Some _ _ _ Hp) as Hlt.
        unfold heap_ok, delivered. cbn. split_and!; try done.
        -- rewrite <- H3. split; [|set_solver]. intros Hin.
           apply elem_of_union in Hin as [Hin|Hin]; [|done].
           apply elem_of_singleton in Hin. lia.
        -- intros Hin. apply H4. apply elem_of_union in Hin as [Hin|Hin]; [|done].
           apply elem_of_singleton in Hin. lia.
      * destruct (p - length (heap w))%nat as [|n] eqn:Hn; [|by destruct n].
        assert (p = length (heap w)) as -> by lia. cbn in Hp. inversion Hp; subst.
        unfold heap_ok, cinv, window_ok, pending_ok, msgs_ok, epoch_ok, delivered.
        cbn. split_and!; try done; try lia; try set_solver.
        fold (delivered (length (heap w)) w). rewrite delivered_fresh; [done|].
        intros x Hx. specialize (I6 x Hx). lia.
    + intros p Hp. fold (delivered p w).
      destruct (decide (p < length (heap w))%nat) as [Hlt|Hge]; [by apply I9|].
      assert (p = length (heap w)) as -> by lia.
      rewrite delivered_fresh by (intros x Hx; specialize (I6 x Hx); lia).
      apply filter_none. eapply Forall_impl; [exact I7|]. cbn. intros; lia.
  - (* Data *)
    destruct (server.clients (srv w) !! ConnID message) as [p|] eqn:Hk; [|done].
    eapply winv_update; eauto; cbn; [apply length_alter|].
    apply alter_quiet. intros c Hc. apply quiet_routeData.
    destruct (winv_lookup _ _ _ _ Hinv Hk) as (c1 & Hc1 & Hid & _). congruence.
  - (* Ack *)
    destruct (server.clients (srv w) !! ConnID message) as [p|] eqn:Hk; [|done].
    eapply winv_update; eauto; cbn; [apply length_alter|].
    apply alter_quiet. intros c Hc. apply quiet_routeAck.
    destruct (winv_lookup _ _ _ _ Hinv Hk) as (c1 & Hc1 & Hid & _). congruence.
Qed.

Lemma handleConn_winv params cs w w' :
  winv params w → handleConn cs w = Some w' → winv params w'.
Proof.
  intros Hinv H. unfold handleConn in H.
  destruct (demux w); [|done]. cbn [negb] in H. destruct cs as [| |[[a message]|]].
  - destruct (server.closeChan (srv w)) as [|x rest]; [done|].
    destruct (_ =? _)%nat; inversion H; subst; clear H;
      (eapply winv_update; eauto; apply same_heap_quiet).
  - destruct (server.closeClientChan (srv w)) as [|connID rest]; [done|].
    destruct (_ && _); inversion H; subst; clear H;
      (eapply winv_update; eauto; cbn;
       [intros k p Hk; by apply lookup_delete_Some in Hk as [_ Hk]
       |apply same_heap_quiet]).
  - inversion H; subst. by apply onDatagram_winv.
  - inversion H; subst. eapply winv_update; eauto. apply same_heap_quiet.
Qed.

Lemma Read_winv params rc w w' r :
  winv params w → Read rc w = Some (w', r) → winv params w'.
Proof.
  intros Hinv H. unfold Read in H. destruct rc.
  - destruct (server.readChan (srv w)) as [|message rest] eqn:Hrc; [done|].
    inversion H; subst; clear H. eapply winv_update; eauto; cbn.
    + by rewrite Hrc, <- app_assoc.
    + apply same_heap_quiet.
  - destruct (server.closeChan (srv w)) as [|x rest]; [done|].
    inversion H; subst; clear H. eapply winv_update; eauto. apply same_heap_quiet.
Qed.

Lemma Write_winv params connID payload w :
  winv params w → winv params (Write connID payload w).1.
Proof.
  intros Hinv. unfold Write.
  destruct (server.isConnClosed (srv w)); [done|].
  destruct (server.clients (srv w) !! connID) as [p|]; [|done].
  destruct (heap w !! p) as [c|] eqn:Hc; [|done].
  destruct (client.isConnClosed c); [done|]. cbn.
  eapply winv_update; eauto; cbn; [apply length_insert|].
  eapply insert_quiet; [exact Hc|]. apply quiet_write.
Qed.

Lemma CloseConn_winv params connID w :
  winv params w → winv params (CloseConn connID w).1.
Proof.
  intros Hinv. unfold CloseConn.
  destruct (server.clients (srv w) !! connID) as [p|]; [|done]. cbn.
  eapply winv_update; eauto; cbn; [apply length_alter|].
  apply alter_quiet. intros c _. apply quiet_signalClose.
Qed.

Lemma foldr_signalClose_quiet params (ks : list (Z * nat)) (h : list client.t) :
  length (foldr (fun kp h => alter signalClose kp.2 h) h ks) = length h ∧
  ∀ p c', foldr (fun kp h => alter signalClose kp.2 h) h ks !! p = Some c' →
          ∃ c, h !! p = Some c ∧ quiet params c c'.
Proof.
  induction ks as [|kp ks [IHlen IH]]; cbn.
  - split; [done|]. apply same_heap_quiet.
  - split; [by rewrite length_alter|]. intros p c' Hp.
    apply (alter_quiet params signalClose) in Hp
      as (c1 & Hc1 & Hq1); [|intros; apply quiet_signalClose].
    destruct (IH p c1 Hc1) as (c & Hc & Hq). exists c. split; [done|].
    by eapply quiet_trans.
Qed.

Lemma CloseSignal_winv params w : winv params w → winv params (CloseSignal w).
Proof.
  intros Hinv. unfold CloseSignal.
  destruct (foldr_signalClose_quiet params
              (map_to_list (server.clients (srv w))) (heap w)) as [Hlen Hq].
  eapply winv_update; eauto.
Qed.

Lemma CloseWait_winv params w w' :
  winv params w → CloseWait w = Some w' → winv params w'.
Proof.
  intros Hinv H. unfold CloseWait in H.
  destruct (server.completeCloseChan (srv w)) as [|x rest]; [done|].
  inversion H; subst; clear H. eapply winv_update; eauto. apply same_heap_quiet.
Qed.

Lemma delivered_tagged p q (ms : list Message) (log : list (nat * Message)) :
  (filter (fun x => x.1 = q) (log ++ ((fun m => (p, m)) <$> ms))).*2
  = (filter (fun x => x.1 = q) log).*2 ++ (if decide (p = q) then ms else []).
Proof.
  rewrite filter_app, fmap_app. f_equal.
  destruct (decide (p = q)) as [->|Hne];
    induction ms as [|m ms IH]; try done; rewrite fmap_cons.
  - rewrite filter_cons_True by done. rewrite fmap_cons. cbn [snd]. by rewrite IH.
  - by rewrite filter_cons_False.
Qed.

(** What a round of the loop of the connection at [p] changes in the
    world. *)
Lemma eventsStep_inv p sel w w' :
  eventsStep p sel w = Some w' →
  ∃ c c' es st,
    p ∈ loops w ∧ heap w !! p = Some c ∧
    handleEvents (tickPending w) sel c = Some (c', es, st) ∧
    heap w' = <[p := c']> (heap w) ∧
    loops w' = (match st with Looping => loops w | Returned => loops w ∖ {[p]} end) ∧
    readLog w' = readLog w ++ ((fun m => (p, m)) <$> reads es) ∧
    wire w' = wire w ++ ((fun m => (p, client.addr c, m)) <$> sends es) ∧
    srv w' = server.set_readChan (server.readChan (srv w) ++ reads es) (srv w) ∧
    demux w' = demux w ∧
    taken w' = taken w.
Proof.
  unfold eventsStep. intros H.
  destruct (bool_decide (p ∈ loops w)) eqn:Hin; [|done].
  apply bool_decide_eq_true in Hin.
  destruct (heap w !! p) as [c|] eqn:Hc; [|done].
  destruct (handleEvents (tickPending w) sel c) as [[[c' es] st]|] eqn:Hh; [|done].
  exists c, c', es, st.
  destruct (foldl_applyEffect p (client.addr c) es
              (set_heap (<[p := c']> (heap w)) w))
    as (F1 & F2 & F3 & F4 & F5 & F6 & F7 & F8).
  cbn zeta in *.
  destruct st; inversion H; subst; clear H; cbn;
    rewrite ?F1, ?F2, ?F3, ?F5, ?F6, ?F7, ?F8; split_and!; done.
Qed.

Lemma eventsStep_winv params p sel w w' :
  winv params w → eventsStep p sel w = Some w' → winv params w'.
Proof.
  intros (I1 & I2 & I3 & I4 & I5 & I6 & I7 & I8 & I9) H.
  destruct (eventsStep_inv _ _ _ _ H)
    as (c & c' & es & st & Hin & Hc & Hh & Eh & El & Elog & Ew & Es & Ed & Et).
  destruct (I8 p c Hc) as (H1 & H2 & H3 & H4 & H5 & H6).
  destruct (handleEvents_ok _ _ _ _ _ _ _ H2 Hh)
    as ((R1 & R2 & R3 & R4 & R5 & R6 & R7) & _).
  pose proof (lookup_lt_Some _ _ _ Hc) as Hlt.
  unfold winv. rewrite Es, Eh, El, Elog, Et, length_insert. cbn.
  rewrite app_assoc.
  split_and!; try done.
  - intros q Hq. apply I5. destruct st; set_solver.
  - intros x Hx. apply elem_of_app in Hx as [Hx|Hx]; [by apply I6|].
    apply list_elem_of_fmap in Hx as (m & -> & _). done.
  - apply Forall_app. split; [done|].
    eapply Forall_impl; [exact R5|]. cbn. intros m ->. lia.
  - intros q cq Hq. destruct (decide (p = q)) as [<-|Hne].
    + rewrite list_lookup_insert_eq in Hq by done. inversion Hq; subst cq; clear Hq.
      unfold heap_ok, delivered. cbn. rewrite El, Elog, delivered_tagged.
      rewrite decide_True by done. split_and!.
      * congruence.
      * done.
      * destruct R1 as (_ & Hl & _). destruct st.
        -- split; [|done]. intros _. destruct Hl as [|Hl]; [done|].
           apply R6 in Hl. done.
        -- split; [set_solver|]. intros Hl0. destruct R6 as [R6 _].
           specialize (R6 eq_refl). lia.
      * destruct st; [auto|set_solver].
      * destruct R4. lia.
      * destruct R4 as [Hle Hrel]. rewrite fmap_app, <- app_assoc, Hrel, app_assoc.
        fold (delivered p w). rewrite H6.
        replace (client.lastProcessedMessageSeqNum c' - 1)
          with ((client.lastProcessedMessageSeqNum c - 1)
                + (client.lastProcessedMessageSeqNum c'
                   - client.lastProcessedMessageSeqNum c)) by lia.
        rewrite seqZ_app by lia. do 2 f_equal. lia.
    + rewrite list_lookup_insert_ne in Hq by done.
      destruct (I8 q cq Hq) as (G1 & G2 & G3 & G4 & G5 & G6).
      unfold heap_ok, delivered. cbn. rewrite El, Elog, delivered_tagged.
      rewrite decide_False by done. rewrite app_nil_r.
      split_and!; try done.
      * rewrite <- G3. destruct st; set_solver.
      * intros Hq'. apply G4. destruct st; set_solver.
  - intros q Hq. unfold delivered. rewrite Elog, delivered_tagged.
    fold (delivered q w). rewrite filter_app, (I9 q Hq). f_equal.
    destruct (decide (p = q)) as [<-|Hne].
    + apply filter_all. eapply Forall_impl; [exact R5|]. cbn. intros m ->. done.
    + apply filter_none. eapply Forall_impl; [exact R5|]. cbn. intros m ->. lia.
Qed.

Lemma step_winv params l w w' :
  winv params w → step l w = Some w' → winv params w'.
Proof.
  intros Hinv H. destruct l; cbn in H.
  - destruct (tickerStopped w); inversion H; subst. by apply Tick_winv.
  - by eapply handleConn_winv.
  - by eapply eventsStep_winv.
  - destruct (Read rc w) as [[w1 r]|] eqn:Hr; inversion H; subst.
    by eapply Read_winv.
  - inversion H; subst. by apply Write_winv.
  - inversion H; subst. by apply CloseConn_winv.
  - inversion H; subst. by apply CloseSignal_winv.
  - by eapply CloseWait_winv.
Qed.

Lemma run_winv params ls w w' :
  winv params w → run ls w = Some w' → winv params w'.
Proof.
  revert w. induction ls as [|l ls IH]; intros w Hinv H; cbn in H.
  - by inversion H; subst.
  - destruct (step l w) as [w1|] eqn:Hs; [|done].
    eapply IH; [|exact H]. by eapply step_winv.
Qed.

Lemma reachable_winv params w : reachable params w → winv params w.
Proof. intros [ls H]. eapply run_winv; [apply NewServer_winv|exact H]. Qed.

(** ** Ordered delivery *)




Example delivery_reordered :
  SeqNum <$> readBy 0 (world_after run_reorder_read) = [2; 3].
Proof. vm_compute. reflexivity. Qed.

(** ** The sliding window *)

(** C5.  With a window size that is not negative, in every world a server
    can be in, the window of every connection holds at most [windowSize]
    entries. *)
Theorem window_bounded params w p c :
  0 ≤ WindowSize params →
  reachable params w →
  heap w !! p = Some c →
  Z.of_nat (length (client.slideWindow c)) ≤ client.windowSize c.
Proof.
  intros Hws Hr Hc. apply reachable_winv in Hr.
  destruct Hr as (_ & _ & _ & _ & _ & _ & _ & I8 & I9).
  destruct (I8 p c Hc) as (_ & (_ & _ & _ & _ & Hwin & _) & _).
  by apply Hwin.
Qed.

Example window_full :
  (fun c => (client.slideWindow c, SeqNum <$> client.pendingSendMessages c))
    <$> heap (world_after run_writes) = [([1], [2; 3])].
Proof. vm_compute. reflexivity. Qed.

Lemma window_bounded_witness :
  ∃ c, heap (world_after run_writes) !! 0%nat = Some c ∧
       Z.of_nat (length (client.slideWindow c)) ≤ client.windowSize c.
Proof.
  eexists. split; [vm_compute; reflexivity|].
  apply (window_bounded params1 (world_after run_writes) 0%nat).
  - vm_compute. discriminate.
  - exists run_writes. vm_compute. reflexivity.
  - vm_compute. reflexivity.
Defined.

(** ** Datagrams for unknown connections *)

(** C8.  A Data or Ack datagram whose connection id is not in the table is
    dropped: the round of [handleConn] ends normally and the world (the
    server and every connection) is what it was. *)
Theorem unknown_connection_dropped w a message :
  demux w = true →
  Type_ message = MsgData ∨ Type_ message = MsgAck →
  server.clients (srv w) !! ConnID message = None →
  step (Conn (CaseDefault (Some (a, message)))) w = Some w.
Proof.
  intros Hd Hty Hk. cbn. unfold handleConn. rewrite Hd. cbn. unfold onDatagram.
  destruct Hty as [-> | ->]; by rewrite Hk.
Qed.

Lemma unknown_connection_dropped_witness :
  step (Conn (CaseDefault (Some (7, data1 2)))) (NewServer params1)
  = Some (NewServer params1).
Proof.
  apply unknown_connection_dropped.
  - reflexivity.
  - left. reflexivity.
  - reflexivity.
Defined.

(** ** [Read] *)



(** ** Connect *)

Lemma winv_connIDs params w :
  winv params w →
  NoDup (client.connID <$> heap w) ∧
  ∀ c, c ∈ heap w → 0 ≤ client.connID c < server.nextClientID (srv w).
Proof.
  intros (I1 & _ & _ & _ & _ & _ & _ & I8 & I9). split.
  - apply NoDup_alt. intros i j x Hi Hj.
    apply list_lookup_fmap_Some in Hi as (ci & -> & Hci).
    apply list_lookup_fmap_Some in Hj as (cj & Heq & Hcj).
    destruct (I8 i ci Hci) as (Ei & _). destruct (I8 j cj Hcj) as (Ej & _). lia.
  - intros c Hc. apply list_elem_of_lookup in Hc as [p Hp].
    destruct (I8 p c Hp) as (E & _). apply lookup_lt_Some in Hp. lia.
Qed.

(** C7.  A Connect datagram handled while the server is not closing: the
    connection gets the id [nextClientID], which is above the id of every
    connection ever built (so no id comes back) and is not in the table; the
    connection is put in the table under that id, the counter goes up by
    one, the loop of the connection is started, and the first thing the loop
    writes to the peer is the acknowledgment with sequence number 0.  While
    the server is closing the datagram changes nothing. *)
Theorem connect_allocates params w a message :
  reachable params w →
  demux w = true →
  Type_ message = MsgConnect →
  ∃ w', step (Conn (CaseDefault (Some (a, message)))) w = Some w' ∧
    (server.isConnClosed (srv w) = true → w' = w) ∧
    (server.isConnClosed (srv w) = false →
     let id := server.nextClientID (srv w) in
     let p := length (heap w) in
     (∀ c, c ∈ heap w → client.connID c < id) ∧
     server.clients (srv w) !! id = None ∧
     server.clients (srv w') = <[id := p]> (server.clients (srv w)) ∧
     server.nextClientID (srv w') = id + 1 ∧
     (∃ c, heap w' = heap w ++ [c] ∧ client.connID c = id ∧ client.addr c = a ∧
           client.isClosed c = 0 ∧ client.isLost c = 0) ∧
     NoDup (client.connID <$> heap w') ∧
     loops w' = {[p]} ∪ loops w ∧
     ∃ w'', step (Events p SelWrite) w' = Some w'' ∧
            wire w'' = wire w ++ [(p, a, NewAck id 0)]).
Proof.
  intros Hr Hd Hty.
  assert (winv params
            (onDatagram a message w)) as Hinv'.
  { apply onDatagram_winv. by apply reachable_winv. }
  apply reachable_winv in Hr.
  exists (onDatagram a message w). split.
  { cbn. unfold handleConn. by rewrite Hd. }
  unfold onDatagram in *. rewrite Hty in *.
  destruct (server.isConnClosed (srv w)) eqn:Hcl; split; try done.
  intros _. cbn zeta.
  destruct (winv_connIDs _ _ Hr) as [_ Hids].
  destruct (winv_connIDs _ _ Hinv') as [Hnd _].
  destruct Hr as (I1 & I2 & I3 & I4 & I5 & I6 & I7 & I8 & I9).
  split_and!; try done.
  - intros c Hc. apply Hids in Hc. lia.
  - destruct (server.clients (srv w) !! server.nextClientID (srv w)) as [q|] eqn:Hq;
      [|done].
    destruct (I4 _ _ Hq). lia.
  - eexists. split; [reflexivity|]. done.
  - assert (length (heap w) ∉ loops w) as Hnin.
    { intros Hin. specialize (I5 _ Hin). lia. }
    unfold step, eventsStep. cbn.
    rewrite bool_decide_eq_true_2 by set_solver.
    rewrite lookup_app_r by lia. rewrite Nat.sub_diag. cbn.
    eexists. split; [reflexivity|]. cbn. done.
Qed.

Lemma connect_allocates_witness :
  ∃ w', step (Conn (CaseDefault (Some (7, connect1)))) (NewServer params1) = Some w' ∧
        server.nextClientID (srv w') = 1 ∧
        ∃ w'', step (Events 0%nat SelWrite) w' = Some w'' ∧
               wire w'' = [(0%nat, 7, NewAck 0 0)].
Proof.
  assert (reachable params1 (NewServer params1)) as Hr by (by exists []).
  destruct (connect_allocates params1 (NewServer params1) 7 connect1 Hr
              eq_refl eq_refl) as (w' & Hs & _ & H).
  exists w'. split; [exact Hs|].
  destruct (H eq_refl) as (_ & _ & _ & Hn & _ & _ & _ & Hw). split; [exact Hn|exact Hw].
Defined.

(** ** [Write] and [CloseConn] *)

Lemma reachable_table_ok params w : reachable params w → table_ok w.
Proof.
  intros Hr k p Hk. apply reachable_winv in Hr.
  destruct (winv_lookup _ _ _ _ Hr Hk) as (c & Hc & _). eauto.
Qed.

Lemma isConnClosed_true s : server.isConnClosed s = true ↔ server.isClosed s ≠ 0.
Proof.
  unfold server.isConnClosed. destruct (server.isClosed s =? 0) eqn:E.
  - apply Z.eqb_eq in E. split; [done|lia].
  - apply Z.eqb_neq in E. done.
Qed.

Lemma client_isConnClosed_true c :
  client.isConnClosed c = true ↔ client.isClosed c ≠ 0 ∨ client.isLost c ≠ 0.
Proof.
  unfold client.isConnClosed. rewrite orb_true_iff, !negb_true_iff, !Z.eqb_neq. done.
Qed.

(** C6.  [Write] returns the connection-closed error exactly when the
    server is closing, or the id is not in the table, or the connection
    under that id is closing or lost, and then it changes nothing.  In every
    other case it returns no error, the counter [seqNum] of the connection
    goes up by one, and a Data message with that sequence number, the
    payload and its length is put on [writeChan] of the connection, from
    where the loop of the connection sends it. *)
Theorem Write_closed_iff w connID payload :
  table_ok w →
  ((Write connID payload w).2 = Some ErrConnClosed ↔
   server.isClosed (srv w) ≠ 0 ∨
   server.clients (srv w) !! connID = None ∨
   ∃ p c, server.clients (srv w) !! connID = Some p ∧ heap w !! p = Some c ∧
          (client.isClosed c ≠ 0 ∨ client.isLost c ≠ 0)) ∧
  ((Write connID payload w).2 = Some ErrConnClosed → (Write connID payload w).1 = w) ∧
  ((Write connID payload w).2 ≠ Some ErrConnClosed →
   (Write connID payload w).2 = None ∧
   ∃ p c, server.clients (srv w) !! connID = Some p ∧ heap w !! p = Some c ∧
     let next := wrap32 (client.seqNum c + 1) in
     (Write connID payload w).1
     = set_heap (<[p := client.set_writeChan
                           (client.writeChan c
                            ++ [NewData connID next (len payload) payload])
                           (client.set_seqNum next c)]> (heap w)) w).
Proof.
  intros Htab. unfold Write.
  destruct (server.isConnClosed (srv w)) eqn:Hs.
  { apply isConnClosed_true in Hs. cbn. split_and!; try done. by split; [left|]. }
  assert (server.isClosed (srv w) = 0) as Hs0.
  { destruct (decide (server.isClosed (srv w) = 0)) as [|Hne]; [done|].
    apply isConnClosed_true in Hne. congruence. }
  destruct (server.clients (srv w) !! connID) as [p|] eqn:Hk.
  2: { cbn. split_and!; try done. split; [by right; left|done]. }
  destruct (Htab _ _ Hk) as [c Hc]. rewrite Hc.
  destruct (client.isConnClosed c) eqn:Hc1.
  { apply client_isConnClosed_true in Hc1. cbn. split_and!; try done.
    split; [|done]. intros _. right. right. eauto. }
  assert (¬ (client.isClosed c ≠ 0 ∨ client.isLost c ≠ 0)) as Hopen.
  { intros H. apply client_isConnClosed_true in H. congruence. }
  cbn. split_and!; try done.
  - split; [done|]. intros [H|[H|(p' & c' & Hp' & Hc' & H)]]; [done|done|].
    inversion Hp'; subst p'. rewrite Hc in Hc'. inversion Hc'; subst c'. done.
  - intros _. split; [done|]. by exists p, c.
Qed.

Lemma Write_closed_iff_witness :
  (Write 5 None (world_after run_connect)).2 = Some ErrConnClosed ∧
  (Write 0 None (world_after run_connect)).2 = None.
Proof.
  assert (table_ok (world_after run_connect)) as Htab.
  { apply (reachable_table_ok params1). exists run_connect. vm_compute. reflexivity. }
  split.
  - apply (proj1 (Write_closed_iff (world_after run_connect) 5 None Htab)).
    right. left. vm_compute. reflexivity.
  - apply (proj2 (proj2 (Write_closed_iff (world_after run_connect) 0 None Htab))).
    vm_compute. discriminate.
Defined.

Example Write_queues_data :
  client.writeChan <$> heap (Write 0 None (world_after run_connect)).1
  = [[NewData 0 1 0 None]].
Proof. vm_compute. reflexivity. Qed.



(** ** Epoch ticks *)


Lemma reassemble_lastAck rounds c :
  client.lastAckSeqNum (client.reassemble rounds c) = client.lastAckSeqNum c.
Proof.
  revert c. induction rounds as [|n IH]; intros c; cbn; [done|].
  destruct (_ !! _); [|done]. by rewrite IH.
Qed.

(** The acknowledgment owed after a Data message is the one for that
    message. *)
Lemma lastAck_recorded c msg :
  client.lastAckSeqNum (client.processReceivedMessage c msg) = SeqNum msg.
Proof.
  unfold client.processReceivedMessage. rewrite reassemble_lastAck.
  by destruct (_ <=? _).
Qed.


Example epoch_tick_resends_data :
  ∃ w', step (Events 0%nat SelEpoch) (world_after run_write_tick) = Some w' ∧
        wire w' = wire (world_after run_write_tick)
                  ++ [(0%nat, 7, NewData 0 1 0 None); (0%nat, 7, NewAck 0 0)].
Proof. eexists. split; vm_compute; reflexivity. Qed.


(** ** Inbound messages and the silent-epoch counter *)

(** [handleConn] leaves the counter alone when it routes an Ack. *)
Lemma routeAck_epochFiredCount message c :
  client.epochFiredCount (routeAck message c) = client.epochFiredCount c.
Proof. by cfields c. Qed.

(** [handleConn] resets the counter when it routes a Data message. *)
Lemma routeData_epochFiredCount message c :
  client.epochFiredCount (routeData message c) = 0.
Proof. by cfields c. Qed.

(** The loop does not touch the counter either when it takes a message. *)
Lemma onReceived_epochFiredCount params c c' es st :
  cinv params c → client.isLost c = 0 →
  client.pendingReceivedMessageQueue c = [] →
  onReceived c = Some (c', es, st) →
  client.epochFiredCount c' = client.epochFiredCount c.
Proof. intros Hinv Hl Hq H. by destruct (onReceived_ok _ _ _ _ _ Hinv Hl Hq H) as (_ & ? & _). Qed.

(** C4.  The counter is at 1 after one epoch tick.  An Ack from the peer,
    routed by [handleConn] and taken by the loop, leaves it at 1; a Data
    message in its place resets it to 0.  With an epoch limit of 2, a peer
    that acknowledges in every epoch is declared lost at the third tick; a
    peer that sends data in every epoch is not. *)
Theorem ack_does_not_reset_counter :
  client.epochFiredCount
    <$> heap (world_after (run_connect ++ [Tick; Events 0%nat SelEpoch])) = [1] ∧
  client.epochFiredCount
    <$> heap (world_after (run_connect ++ epoch_with (ack1 1))) = [1] ∧
  client.epochFiredCount
    <$> heap (world_after (run_connect ++ epoch_with (data1 2))) = [0] ∧
  client.isLost <$> heap (world_after run_acks) = [1] ∧
  client.isLost <$> heap (world_after run_datas) = [0].
Proof. split_and!; vm_compute; reflexivity. Qed.

(** ** A silent peer *)

Lemma calm_refl c : calm c c.
Proof. by unfold calm. Qed.

Lemma calm_trans c1 c2 c3 : calm c1 c2 → calm c2 c3 → calm c1 c3.
Proof. unfold calm. intros [? ?] [? ?]. split; congruence. Qed.

Lemma calm_signalClose c : calm c (signalClose c).
Proof. unfold calm. by cfields c. Qed.

Lemma calm_routeAck message c : calm c (routeAck message c).
Proof. unfold calm. by cfields c. Qed.

Lemma alter_calm f q (h : list client.t) p c :
  (∀ c, calm c (f c)) → h !! p = Some c →
  ∃ c', alter f q h !! p = Some c' ∧ calm c c'.
Proof.
  intros Hf Hp. destruct (decide (q = p)) as [->|Hne].
  - rewrite list_lookup_alter_eq, Hp. cbn. eauto.
  - rewrite list_lookup_alter_ne by done. exists c. split; [done|apply calm_refl].
Qed.

Lemma foldr_signalClose_calm (ks : list (Z * nat)) (h : list client.t) p c :
  h !! p = Some c →
  ∃ c', foldr (fun kp h => alter signalClose kp.2 h) h ks !! p = Some c' ∧ calm c c'.
Proof.
  intros Hp. induction ks as [|kp ks (c1 & Hc1 & Hcalm)]; cbn.
  - exists c. split; [done|apply calm_refl].
  - destruct (alter_calm signalClose kp.2 _ p c1 calm_signalClose Hc1)
      as (c2 & Hc2 & Hcalm2).
    exists c2. split; [done|]. by eapply calm_trans.
Qed.

Lemma sent_eq p w w' : wire w' = wire w → sent p w' = sent p w.
Proof. unfold sent. by intros ->. Qed.

Lemma sent_other p q a (ms : list Message) (w w' : world) :
  q ≠ p →
  wire w' = wire w ++ ((fun m => (q, a, m)) <$> ms) →
  sent p w' = sent p w.
Proof.
  intros Hne E. unfold sent. rewrite E, filter_app, fmap_app.
  assert (filter (fun x : nat * UDPAddr * Message => x.1.1 = p)
                 ((fun m => (q, a, m)) <$> ms) = []) as ->.
  { clear E. induction ms as [|m ms IH]; [done|]. rewrite fmap_cons.
    by rewrite filter_cons_False. }
  by rewrite app_nil_r.
Qed.

(** A step that is not a round of the loop of the connection at [p] keeps
    the lost flag of the connection, whether its loop runs, and what has been
    written for it; it keeps the counter too unless it is a message from the
    peer. *)
Lemma step_calm params l w w' p c :
  winv params w → step l w = Some w' → heap w !! p = Some c →
  isRoundOf p l = false →
  ∃ c', heap w' !! p = Some c' ∧
        client.isLost c' = client.isLost c ∧
        (isInboundOf (Z.of_nat p) l = false →
         client.epochFiredCount c' = client.epochFiredCount c) ∧
        (p ∈ loops w' ↔ p ∈ loops w) ∧
        sent p w' = sent p w.
Proof.
  intros Hinv H Hc Hround.
  assert (∀ w1 : world, heap w1 = heap w → loops w1 = loops w → wire w1 = wire w →
          ∃ c', heap w1 !! p = Some c' ∧ client.isLost c' = client.isLost c ∧
                (isInboundOf (Z.of_nat p) l = false →
                 client.epochFiredCount c' = client.epochFiredCount c) ∧
                (p ∈ loops w1 ↔ p ∈ loops w) ∧ sent p w1 = sent p w) as Hsame.
  { intros w1 E1 E2 E3. exists c. rewrite E1, E2, (sent_eq p w w1 E3). done. }
  assert (∀ (w1 : world) c', heap w1 !! p = Some c' → calm c c' →
          loops w1 = loops w → wire w1 = wire w →
          ∃ c', heap w1 !! p = Some c' ∧ client.isLost c' = client.isLost c ∧
                (isInboundOf (Z.of_nat p) l = false →
                 client.epochFiredCount c' = client.epochFiredCount c) ∧
                (p ∈ loops w1 ↔ p ∈ loops w) ∧ sent p w1 = sent p w) as Hcalm.
  { intros w1 c' E1 [C1 C2] E2 E3. exists c'. rewrite E2, (sent_eq p w w1 E3). done. }
  pose proof (lookup_lt_Some _ _ _ Hc) as Hlt.
  destruct l as [|cs|q sel|rc|connID payload|connID| |]; cbn in H.
  - destruct (tickerStopped w); inversion H; subst. by apply Hsame.
  - unfold handleConn in H. destruct (demux w); [|done]. cbn [negb] in H.
    destruct cs as [| |[[a message]|]].
    + destruct (server.closeChan (srv w)); [done|].
      destruct (_ =? _)%nat; inversion H; subst; by apply Hsame.
    + destruct (server.closeClientChan (srv w)); [done|].
      destruct (_ && _); inversion H; subst; by apply Hsame.
    + inversion H; subst; clear H. unfold onDatagram. cbn in *.
      destruct (Type_ message) eqn:Hty.
      * destruct (server.isConnClosed (srv w)); [by apply Hsame|].
        exists c. cbn. rewrite lookup_app_l by done.
        destruct Hinv as (_ & _ & _ & _ & I5 & _).
        split_and!; try done. set_solver by lia.
      * destruct (server.clients (srv w) !! ConnID message) as [q|] eqn:Hk;
          [|by apply Hsame].
        destruct (winv_lookup _ _ _ _ Hinv Hk) as (cq & Hcq & _ & Hid).
        destruct (decide (q = p)) as [->|Hne].
        -- exists (routeData message c). cbn.
           rewrite list_lookup_alter_eq, Hc. split_and!; try done.
           intros Hin. apply bool_decide_eq_false in Hin. done.
        -- exists c. cbn. by rewrite list_lookup_alter_ne.
      * destruct (server.clients (srv w) !! ConnID message) as [q|] eqn:Hk;
          [|by apply Hsame].
        destruct (alter_calm (routeAck message) q (heap w) p c
                    (calm_routeAck message) Hc) as (c' & Hc' & Hcc).
        by eapply Hcalm.
    + inversion H; subst. by apply Hsame.
  - cbn in Hround. apply bool_decide_eq_false in Hround.
    destruct (eventsStep_inv _ _ _ _ H)
      as (cq & cq' & es & st & Hin & Hcq & Hh & Eh & El & Elog & Ew & Es & Ed & Et).
    exists c. rewrite Eh, El, list_lookup_insert_ne by done.
    split_and!; try done.
    + destruct st; set_solver.
    + by eapply sent_other.
  - destruct (Read rc w) as [[w1 r]|] eqn:Hr; inversion H; subst; clear H.
    unfold Read in Hr. destruct rc.
    + destruct (server.readChan (srv w)); inversion Hr; subst. by apply Hsame.
    + destruct (server.closeChan (srv w)); inversion Hr; subst. by apply Hsame.
  - inversion H; subst; clear H. unfold Write.
    destruct (server.isConnClosed (srv w)); [by apply Hsame|].
    destruct (server.clients (srv w) !! connID) as [q|]; [|by apply Hsame].
    destruct (heap w !! q) as [cq|] eqn:Hq; [|by apply Hsame].
    destruct (client.isConnClosed cq); [by apply Hsame|].
    destruct (decide (q = p)) as [->|Hne].
    + rewrite Hc in Hq. inversion Hq; subst cq.
      eapply Hcalm; [cbn; by apply list_lookup_insert_eq| |done|done].
      unfold calm. by cfields c.
    + eapply Hcalm; [cbn; by rewrite list_lookup_insert_ne|apply calm_refl|done|done].
  - inversion H; subst; clear H. unfold CloseConn.
    destruct (server.clients (srv w) !! connID) as [q|]; [|by apply Hsame].
    destruct (alter_calm signalClose q (heap w) p c calm_signalClose Hc)
      as (c' & Hc' & Hcc).
    by eapply Hcalm.
  - inversion H; subst; clear H. unfold CloseSignal.
    destruct (foldr_signalClose_calm (map_to_list (server.clients (srv w)))
                (heap w) p c Hc) as (c' & Hc' & Hcc).
    by eapply Hcalm.
  - unfold CloseWait in H. destruct (server.completeCloseChan (srv w)); [done|].
    inversion H; subst. by apply Hsame.
Qed.






Example silence_then_lost :
  (fun w => (client.isLost <$> heap w, elements (loops w), tickerStopped w))
    (world_after (run_connect ++ run_silence)) = ([1], [], true).
Proof. vm_compute. reflexivity. Qed.


(** ** The ticker is shared

    Every connection is built with the ticker of the server
    ([epochTimer: s.epochTimer]), so a tick is taken by one loop only and
    [c.epochTimer.Stop()] stops the ticks of every connection.  The ticks
    counted in the statements above are those the loop of the connection
    takes.  Below, the first of two connections takes three ticks and is
    lost; the second has taken none, is not lost, and the ticker will not
    fire again. *)
Remark ticker_is_shared :
  (fun w => (client.isLost <$> heap w, client.epochFiredCount <$> heap w,
             elements (loops w), tickerStopped w, step Tick w))
    (world_after run_two_peers)
  = ([1; 0], [3; 0], [1%nat], true, None).
Proof. vm_compute. reflexivity. Qed.

(** ** The counter is an [int32]

    At the largest [int32] the increment wraps to the smallest, which no
    limit of that size is below: the upper bound on [epochLimit] assumed for
    a silent peer is needed. *)
Remark epoch_counter_wraps c :
  client.epochFiredCount c = 2 ^ 31 - 1 →
  client.epochLimit c = 2 ^ 31 - 1 →
  ∃ es, onEpoch true c
        = Some (client.set_epochFiredCount (- 2 ^ 31) c, es, Looping).
Proof.
  intros Hc Hl. unfold onEpoch. cbn [negb]. rewrite Hc.
  change (wrap32 (2 ^ 31 - 1 + 1)) with (- 2 ^ 31).
  assert ((client.epochFiredCount (client.set_epochFiredCount (- 2 ^ 31) c)
           >? client.epochLimit (client.set_epochFiredCount (- 2 ^ 31) c)) = false)
    as ->; [|eauto].
  cfields c. subst. reflexivity.
Qed.

(** * More of the server *)

(** ** The channels and the table of the server *)

Lemma NewServer_sinv params : sinv (NewServer params).
Proof.
  unfold sinv, NewServer. cbn. split_and!; try done; try (by left).
  - intros p Hp. lia.
  - intros [H|H]; done.
Qed.

Lemma foldr_signalClose_length (ks : list (Z * nat)) (h : list client.t) :
  length (foldr (fun kp h => alter signalClose kp.2 h) h ks) = length h.
Proof. induction ks as [|kp ks IH]; cbn; [done|]. by rewrite length_alter. Qed.

Ltac solve_sinv Hs :=
  first [exact Hs | unfold sinv; cbn; split_and!; done].

Lemma step_sinv params l w w' :
  winv params w → sinv w → step l w = Some w' → sinv w'.
Proof.
  intros Hinv Hs H. pose proof Hs as (S1 & S2 & S3 & S4 & S5).
  destruct l as [|cs|q sel|rc|connID payload|connID| |]; cbn in H.
  - destruct (tickerStopped w); inversion H; subst. solve_sinv Hs.
  - unfold handleConn in H. destruct (demux w) eqn:Hd; [|done]. cbn [negb] in H.
    assert (server.completeCloseChan (srv w) = [] ∧ connOpen w = true) as [Hcc Hco].
    { split.
      - destruct (server.completeCloseChan (srv w)) eqn:E; [done|].
        destruct S4 as [? _]; [by left|congruence].
      - destruct (connOpen w) eqn:E; [done|].
        destruct S4 as [? _]; [by right|congruence]. }
    destruct cs as [| |[[a message]|]].
    + destruct (server.closeChan (srv w)) as [|x rest]; [done|].
      destruct (size _ =? 0)%nat eqn:Hsz; inversion H; subst; clear H;
        unfold sinv; cbn; split_and!; try done; try (by right).
      * intros _. split; [done|]. apply map_size_empty_iff.
        apply Nat.eqb_eq in Hsz. exact Hsz.
      * rewrite Hcc, Hco. intros [?|?]; done.
    + by rewrite S1 in H.
    + inversion H; subst; clear H. unfold onDatagram.
      destruct (Type_ message).
      * destruct (server.isConnClosed (srv w)); [solve_sinv Hs|].
        destruct Hinv as (I1 & _).
        unfold sinv. cbn. rewrite length_app. cbn. split_and!; try done.
        -- intros p Hp. destruct (decide (p = length (heap w))) as [->|Hne].
           ++ rewrite I1. apply lookup_insert_eq.
           ++ rewrite lookup_insert_ne by (rewrite I1; lia). apply S3. lia.
        -- rewrite Hcc, Hco. intros [?|?]; done.
      * destruct (server.clients (srv w) !! ConnID message); [|solve_sinv Hs].
        unfold sinv. cbn. rewrite length_alter. done.
      * destruct (server.clients (srv w) !! ConnID message); [|solve_sinv Hs].
        unfold sinv. cbn. rewrite length_alter. done.
    + inversion H; subst; clear H. unfold sinv. cbn. split_and!; try done.
      rewrite Hcc, Hco. intros [?|?]; done.
  - destruct (eventsStep_inv _ _ _ _ H)
      as (c & c' & es & st & Hin & Hc & Hh & Eh & El & Elog & Ew & Es & Ed & Et).
    assert (connOpen w' = connOpen w) as Eo.
    { unfold eventsStep in H. rewrite bool_decide_eq_true_2, Hc, Hh in H by done.
      destruct (foldl_applyEffect q (client.addr c) es
                  (set_heap (<[q := c']> (heap w)) w)) as (_ & _ & _ & F4 & _).
      cbn zeta in F4. destruct st; inversion H; subst; cbn; rewrite F4; done. }
    unfold sinv. rewrite Es, Eh, Elog, Et, Ed, Eo, length_insert. cbn.
    split_and!; try done.
    rewrite app_assoc, S5, fmap_app. f_equal.
    rewrite <- list_fmap_compose. cbn. by rewrite list_fmap_id.
  - destruct (Read rc w) as [[w1 r]|] eqn:Hr; inversion H; subst; clear H.
    unfold Read in Hr. destruct rc.
    + destruct (server.readChan (srv w)) as [|message rest] eqn:Hrc;
        inversion Hr; subst; clear Hr.
      unfold sinv. cbn. split_and!; try done.
      by rewrite <- S5, <- app_assoc.
    + destruct (server.closeChan (srv w)); inversion Hr; subst. solve_sinv Hs.
  - inversion H; subst; clear H. unfold Write.
    destruct (server.isConnClosed (srv w)); [solve_sinv Hs|].
    destruct (server.clients (srv w) !! connID) as [p|]; [|solve_sinv Hs].
    destruct (heap w !! p); [|solve_sinv Hs].
    destruct (client.isConnClosed _); [solve_sinv Hs|].
    unfold sinv. cbn. by rewrite length_insert.
  - inversion H; subst; clear H. unfold CloseConn.
    destruct (server.clients (srv w) !! connID) as [p|]; [|solve_sinv Hs].
    unfold sinv. cbn. by rewrite length_alter.
  - inversion H; subst; clear H. unfold CloseSignal, sinv. cbn.
    by rewrite foldr_signalClose_length.
  - unfold CloseWait in H.
    destruct (server.completeCloseChan (srv w)) as [|x rest] eqn:Hcc; [done|].
    inversion H; subst; clear H. destruct S4 as [Hd He]; [by left|].
    unfold sinv. cbn. split_and!; done.
Qed.

Lemma run_sinv params ls w w' :
  winv params w → sinv w → run ls w = Some w' → sinv w'.
Proof.
  revert w. induction ls as [|l ls IH]; intros w Hinv Hs H; cbn in H.
  - by inversion H; subst.
  - destruct (step l w) as [w1|] eqn:Hst; [|done].
    eapply IH; [|by eapply step_sinv|exact H]. by eapply step_winv.
Qed.

Lemma reachable_sinv params w : reachable params w → sinv w.
Proof.
  intros [ls H]. eapply run_sinv; [apply NewServer_winv|apply NewServer_sinv|exact H].
Qed.

(** X1.  A connection is never taken out of the table: in every world a
    server can be in, every connection ever built, lost ones included, is
    in the table under its id, and nothing has been sent on
    [closeClientChan], the only way out of the table. *)
Theorem connections_stay_registered params w p c :
  reachable params w →
  heap w !! p = Some c →
  server.clients (srv w) !! client.connID c = Some p ∧
  server.closeClientChan (srv w) = [].
Proof.
  intros Hr Hc. pose proof (reachable_winv _ _ Hr) as Hinv.
  destruct (reachable_sinv _ _ Hr) as (S1 & _ & S3 & _).
  destruct Hinv as (_ & _ & _ & _ & _ & _ & _ & I8 & _).
  destruct (I8 p c Hc) as (Hid & _). rewrite Hid. split; [|done].
  apply S3. by eapply lookup_lt_Some.
Qed.

Lemma connections_stay_registered_witness :
  ∃ c, heap (world_after (run_connect ++ run_silence)) !! 0%nat = Some c ∧
       client.isLost c = 1 ∧
       server.clients (srv (world_after (run_connect ++ run_silence)))
         !! client.connID c = Some 0%nat.
Proof.
  assert (reachable params1 (world_after (run_connect ++ run_silence))) as Hr.
  { exists (run_connect ++ run_silence). vm_compute. reflexivity. }
  destruct (heap (world_after (run_connect ++ run_silence)) !! 0%nat) as [c|] eqn:Hc;
    [|vm_compute in Hc; discriminate].
  exists c. split; [reflexivity|]. split.
  - vm_compute in Hc. inversion Hc; subst c. reflexivity.
  - apply (connections_stay_registered params1 _ 0%nat c Hr Hc).
Defined.



(** ** [Close] *)

(** X3.  Once a connection has been accepted, [Close] cannot finish: no
    completion signal is ever there for it to take, and the socket stays
    open, in every world the server can be in from then on.  The signal is
    sent only when the table is empty, and the table never loses an entry:
    the only [delete] follows a receipt from [closeClientChan], on which
    only the branch of [prepareReadMessage] guarded by the nil
    [toCloseChan] sends. *)
Theorem Close_waits_forever params w :
  reachable params w →
  heap w ≠ [] →
  CloseWait w = None ∧ connOpen w = true ∧ server.completeCloseChan (srv w) = [].
Proof.
  intros Hr Hne. destruct (reachable_sinv _ _ Hr) as (_ & _ & S3 & S4 & _).
  assert (server.clients (srv w) ≠ ∅) as Hcl.
  { intros He. destruct (heap w) as [|c h] eqn:Hh; [done|].
    specialize (S3 0%nat). cbn in S3. rewrite He in S3.
    rewrite lookup_empty in S3. discriminate S3. lia. }
  assert (server.completeCloseChan (srv w) = []) as Hcc.
  { destruct (server.completeCloseChan (srv w)) eqn:E; [done|].
    destruct S4 as [_ ?]; [by left|done]. }
  split_and!; try done.
  - unfold CloseWait. by rewrite Hcc.
  - destruct (connOpen w) eqn:E; [done|]. destruct S4 as [_ ?]; [by right|done].
Qed.

Lemma Close_waits_forever_witness :
  CloseWait (world_after (run_connect ++ [CallClose; Conn CaseClose])) = None ∧
  connOpen (world_after (run_connect ++ [CallClose; Conn CaseClose])) = true ∧
  server.completeCloseChan
    (srv (world_after (run_connect ++ [CallClose; Conn CaseClose]))) = [].
Proof.
  apply (Close_waits_forever params1).
  - exists (run_connect ++ [CallClose; Conn CaseClose]). vm_compute. reflexivity.
  - vm_compute. discriminate.
Defined.

(** X4.  On a server whose table is empty, a shutdown goes through: [Close]
    signals, [handleConn] takes the signal, marks the server closed, signals
    completion and returns, and [Close] closes the socket.  No connection
    object is touched. *)
Theorem Close_completes_when_empty w :
  demux w = true →
  server.clients (srv w) = ∅ →
  server.closeChan (srv w) = [] →
  server.completeCloseChan (srv w) = [] →
  ∃ w', run run_close w = Some w' ∧
        server.isClosed (srv w') = 1 ∧ demux w' = false ∧ connOpen w' = false ∧
        server.completeCloseChan (srv w') = [] ∧ heap w' = heap w.
Proof.
  intros Hd Hcl Hcc Hco. unfold run_close, run, step.
  unfold CloseSignal. rewrite Hcl, map_to_list_empty. cbn [foldr].
  unfold handleConn. cbn. rewrite Hd, Hcc, Hcl. cbn.
  unfold CloseWait. cbn. rewrite Hco. cbn. eexists. split; [reflexivity|]. done.
Qed.

Lemma Close_completes_when_empty_witness :
  ∃ w', run run_close (NewServer params1) = Some w' ∧
        server.isClosed (srv w') = 1 ∧ demux w' = false ∧ connOpen w' = false ∧
        server.completeCloseChan (srv w') = [] ∧ heap w' = heap (NewServer params1).
Proof. apply Close_completes_when_empty; reflexivity. Defined.

(** X5.  The close signal is one value on one channel with two receivers.
    If [Read] takes it, [Read] returns the sentinel, [handleConn] has
    nothing to take and the server is not marked closed; if [handleConn]
    takes it, the server is marked closed and [Read] has nothing to take. *)
Theorem close_signal_taken_once w :
  demux w = true →
  server.closeChan (srv w) = [] →
  (∃ w1, Read ReadClose (CloseSignal w) = Some (w1, (-1, None, None)) ∧
         handleConn CaseClose w1 = None ∧
         server.isClosed (srv w1) = server.isClosed (srv w)) ∧
  (∃ w2, handleConn CaseClose (CloseSignal w) = Some w2 ∧
         Read ReadClose w2 = None ∧
         server.isClosed (srv w2) = 1).
Proof.
  intros Hd Hcc. split.
  - unfold Read, CloseSignal. cbn. rewrite Hcc. cbn. eexists. split; [reflexivity|].
    unfold handleConn. cbn. rewrite Hd. done.
  - unfold handleConn, CloseSignal. cbn. rewrite Hd, Hcc. cbn.
    destruct (size (server.clients (srv w)) =? 0)%nat;
      (eexists; split; [reflexivity|]; done).
Qed.

Lemma close_signal_taken_once_witness :
  (∃ w1, Read ReadClose (CloseSignal (world_after run_connect))
         = Some (w1, (-1, None, None)) ∧
         handleConn CaseClose w1 = None ∧
         server.isClosed (srv w1) = server.isClosed (srv (world_after run_connect))) ∧
  (∃ w2, handleConn CaseClose (CloseSignal (world_after run_connect)) = Some w2 ∧
         Read ReadClose w2 = None ∧
         server.isClosed (srv w2) = 1).
Proof. apply close_signal_taken_once; vm_compute; reflexivity. Defined.

(** ** A closing server, and a server whose [handleConn] has returned *)

(** While the server is marked closed, or once [handleConn] has returned,
    a step builds no connection and leaves the table and the id counter
    alone; the mark stays, and a [handleConn] that has returned runs no
    round. *)
Lemma step_no_connect l w w' :
  sinv w → step l w = Some w' →
  server.isClosed (srv w) ≠ 0 ∨ demux w = false →
  length (heap w') = length (heap w) ∧
  server.nextClientID (srv w') = server.nextClientID (srv w) ∧
  server.clients (srv w') = server.clients (srv w) ∧
  (server.isClosed (srv w) ≠ 0 → server.isClosed (srv w') ≠ 0) ∧
  (demux w = false → demux w' = false ∧ isConn l = false).
Proof.
  intros (S1 & _) H Hor.
  destruct l as [|cs|q sel|rc|connID payload|connID| |]; cbn in H.
  - destruct (tickerStopped w); inversion H; subst. done.
  - unfold handleConn in H. destruct (demux w) eqn:Hd; [|done]. cbn [negb] in H.
    destruct Hor as [Hcl|?]; [|done].
    destruct cs as [| |[[a message]|]].
    + destruct (server.closeChan (srv w)) as [|x rest]; [done|].
      destruct (size _ =? 0)%nat; inversion H; subst; done.
    + by rewrite S1 in H.
    + inversion H; subst; clear H. unfold onDatagram.
      destruct (Type_ message).
      * assert (server.isConnClosed (srv w) = true) as ->; [|done].
        unfold server.isConnClosed. by apply Z.eqb_neq in Hcl as ->.
      * destruct (server.clients (srv w) !! ConnID message); [|done].
        cbn. by rewrite length_alter.
      * destruct (server.clients (srv w) !! ConnID message); [|done].
        cbn. by rewrite length_alter.
    + inversion H; subst. done.
  - destruct (eventsStep_inv _ _ _ _ H)
      as (c & c' & es & st & Hin & Hc & Hh & Eh & El & Elog & Ew & Es & Ed & Et).
    rewrite Es, Eh, Ed, length_insert. done.
  - destruct (Read rc w) as [[w1 r]|] eqn:Hr; inversion H; subst; clear H.
    unfold Read in Hr. destruct rc.
    + destruct (server.readChan (srv w)); inversion Hr; subst. done.
    + destruct (server.closeChan (srv w)); inversion Hr; subst. done.
  - inversion H; subst; clear H. unfold Write.
    destruct (server.isConnClosed (srv w)); [done|].
    destruct (server.clients (srv w) !! connID) as [p|]; [|done].
    destruct (heap w !! p); [|done].
    destruct (client.isConnClosed _); [done|]. cbn. by rewrite length_insert.
  - inversion H; subst; clear H. unfold CloseConn.
    destruct (server.clients (srv w) !! connID) as [p|]; [|done].
    cbn. by rewrite length_alter.
  - inversion H; subst; clear H. unfold CloseSignal. cbn.
    by rewrite foldr_signalClose_length.
  - unfold CloseWait in H.
    destruct (server.completeCloseChan (srv w)); [done|].
    inversion H; subst. done.
Qed.

Lemma run_no_connect params ls w w' :
  winv params w → sinv w → run ls w = Some w' →
  server.isClosed (srv w) ≠ 0 ∨ demux w = false →
  length (heap w') = length (heap w) ∧
  server.nextClientID (srv w') = server.nextClientID (srv w) ∧
  server.clients (srv w') = server.clients (srv w) ∧
  (server.isClosed (srv w) ≠ 0 → server.isClosed (srv w') ≠ 0) ∧
  (demux w = false → demux w' = false ∧ Forall (fun l => isConn l = false) ls).
Proof.
  revert w. induction ls as [|l ls IH]; intros w Hinv Hs H Hor; cbn in H.
  - inversion H; subst. split_and!; done.
  - destruct (step l w) as [w1|] eqn:Hst; [|done].
    destruct (step_no_connect _ _ _ Hs Hst Hor) as (E1 & E2 & E3 & E4 & E5).
    assert (server.isClosed (srv w1) ≠ 0 ∨ demux w1 = false) as Hor1.
    { destruct Hor as [?|?]; [left; auto|right; by apply E5]. }
    destruct (IH w1 (step_winv _ _ _ _ Hinv Hst) (step_sinv _ _ _ _ Hinv Hs Hst) H Hor1)
      as (F1 & F2 & F3 & F4 & F5).
    split_and!; try congruence; auto.
    intros Hd. destruct (E5 Hd) as [Hd1 Hl]. destruct (F5 Hd1) as [Hd' Hrest].
    split; [done|]. by constructor.
Qed.

(** X6.  Closing cannot be undone: once [handleConn] has marked the server
    closed, in every later world the mark is still there, no connection has
    been added (a Connect is dropped), the table and the id counter are what
    they were, and every [Write] returns the connection-closed error and
    changes nothing. *)
Theorem closing_is_permanent params w ls w' :
  reachable params w →
  server.isClosed (srv w) ≠ 0 →
  run ls w = Some w' →
  server.isClosed (srv w') ≠ 0 ∧
  length (heap w') = length (heap w) ∧
  server.clients (srv w') = server.clients (srv w) ∧
  server.nextClientID (srv w') = server.nextClientID (srv w) ∧
  ∀ connID payload, Write connID payload w' = (w', Some ErrConnClosed).
Proof.
  intros Hr Hcl Hrun.
  destruct (run_no_connect _ _ _ _ (reachable_winv _ _ Hr) (reachable_sinv _ _ Hr)
              Hrun (or_introl Hcl)) as (E1 & E2 & E3 & E4 & _).
  specialize (E4 Hcl). split_and!; try done.
  intros connID payload. unfold Write.
  apply isConnClosed_true in E4. by rewrite E4.
Qed.

Lemma closing_is_permanent_witness :
  length (heap (world_after
                  (run_connect ++ [CallClose; Conn CaseClose]
                   ++ [Conn (CaseDefault (Some (8, connect1)))]))) = 1%nat ∧
  (Write 0 None (world_after
                   (run_connect ++ [CallClose; Conn CaseClose]
                    ++ [Conn (CaseDefault (Some (8, connect1)))]))).2
  = Some ErrConnClosed.
Proof.
  destruct (closing_is_permanent params1
              (world_after (run_connect ++ [CallClose; Conn CaseClose]))
              [Conn (CaseDefault (Some (8, connect1)))]
              (world_after
                 (run_connect ++ [CallClose; Conn CaseClose]
                  ++ [Conn (CaseDefault (Some (8, connect1)))])))
    as (_ & H2 & _ & _ & H5).
  - exists (run_connect ++ [CallClose; Conn CaseClose]). vm_compute. reflexivity.
  - vm_compute. discriminate.
  - vm_compute. reflexivity.
  - split; [rewrite H2; vm_compute; reflexivity|]. by rewrite H5.
Defined.

(** X7.  A failed read of the socket ends [handleConn] for good: in every
    later world it has still returned, the run since has no round of it (no
    datagram is handled), and no connection has been added to the heap or
    to the table. *)
Theorem handleConn_returns_for_good params w ls w' :
  reachable params w →
  demux w = false →
  run ls w = Some w' →
  demux w' = false ∧
  Forall (fun l => isConn l = false) ls ∧
  length (heap w') = length (heap w) ∧
  server.clients (srv w') = server.clients (srv w).
Proof.
  intros Hr Hd Hrun.
  destruct (run_no_connect _ _ _ _ (reachable_winv _ _ Hr) (reachable_sinv _ _ Hr)
              Hrun (or_intror Hd)) as (E1 & E2 & E3 & _ & E5).
  destruct (E5 Hd). done.
Qed.

Lemma handleConn_returns_for_good_witness :
  step (Conn (CaseDefault (Some (7, data1 2))))
       (world_after (run_connect ++ [Conn (CaseDefault None)])) = None ∧
  demux (world_after (run_connect ++ [Conn (CaseDefault None); Tick])) = false.
Proof.
  split; [vm_compute; reflexivity|].
  apply (handleConn_returns_for_good params1
           (world_after (run_connect ++ [Conn (CaseDefault None)])) [Tick]).
  - exists (run_connect ++ [Conn (CaseDefault None)]). vm_compute. reflexivity.
  - vm_compute. reflexivity.
  - vm_compute. reflexivity.
Defined.

(** ** How a step changes a connection object *)

Lemma foldr_signalClose_iter (ks : list (Z * nat)) (h : list client.t) p c :
  h !! p = Some c →
  ∃ n, foldr (fun kp h => alter signalClose kp.2 h) h ks !! p
       = Some (Nat.iter n signalClose c).
Proof.
  intros Hp. induction ks as [|kp ks [n IH]]; cbn.
  - by exists 0%nat.
  - destruct (decide (kp.2 = p)) as [->|Hne].
    + exists (S n). by rewrite list_lookup_alter_eq, IH.
    + exists n. by rewrite list_lookup_alter_ne.
Qed.

Lemma step_touched params l w w' p c :
  winv params w → step l w = Some w' → heap w !! p = Some c →
  ∃ c', heap w' !! p = Some c' ∧ touched w l p c c'.
Proof.
  intros Hinv H Hc.
  assert (client.connID c = Z.of_nat p) as Hid.
  { destruct Hinv as (_ & _ & _ & _ & _ & _ & _ & I8 & _).
    by destruct (I8 p c Hc) as (? & _). }
  pose proof (lookup_lt_Some _ _ _ Hc) as Hlt.
  destruct l as [|cs|q sel|rc|connID payload|connID| |]; cbn in H.
  - destruct (tickerStopped w); inversion H; subst. exists c. split; [done|constructor].
  - unfold handleConn in H. destruct (demux w); [|done]. cbn [negb] in H.
    destruct cs as [| |[[a message]|]].
    + destruct (server.closeChan (srv w)); [done|].
      destruct (_ =? _)%nat; inversion H; subst; (exists c; split; [done|constructor]).
    + destruct (server.closeClientChan (srv w)); [done|].
      destruct (_ && _); inversion H; subst; (exists c; split; [done|constructor]).
    + inversion H; subst; clear H. unfold onDatagram.
      destruct (Type_ message) eqn:Hty.
      * destruct (server.isConnClosed (srv w)); [exists c; split; [done|constructor]|].
        exists c. cbn. rewrite lookup_app_l by done. split; [done|constructor].
      * destruct (server.clients (srv w) !! ConnID message) as [q|] eqn:Hk;
          [|exists c; split; [done|constructor]].
        destruct (winv_lookup _ _ _ _ Hinv Hk) as (cq & Hcq & Hidq & Hq).
        cbn. destruct (decide (q = p)) as [->|Hne].
        -- exists (routeData message c). rewrite list_lookup_alter_eq, Hc.
           split; [done|]. eapply touched_data; eauto. congruence.
        -- exists c. rewrite list_lookup_alter_ne by done. split; [done|constructor].
      * destruct (server.clients (srv w) !! ConnID message) as [q|] eqn:Hk;
          [|exists c; split; [done|constructor]].
        destruct (winv_lookup _ _ _ _ Hinv Hk) as (cq & Hcq & Hidq & Hq).
        cbn. destruct (decide (q = p)) as [->|Hne].
        -- exists (routeAck message c). rewrite list_lookup_alter_eq, Hc.
           split; [done|]. eapply touched_ack; eauto. congruence.
        -- exists c. rewrite list_lookup_alter_ne by done. split; [done|constructor].
    + inversion H; subst. exists c. split; [done|constructor].
  - destruct (eventsStep_inv _ _ _ _ H)
      as (cq & cq' & es & st & Hin & Hcq & Hh & Eh & _).
    rewrite Eh. destruct (decide (q = p)) as [->|Hne].
    + rewrite Hc in Hcq. inversion Hcq; subst cq. exists cq'.
      rewrite list_lookup_insert_eq by done. split; [done|].
      eapply touched_round; eauto.
    + exists c. rewrite list_lookup_insert_ne by done. split; [done|constructor].
  - destruct (Read rc w) as [[w1 r]|] eqn:Hr; inversion H; subst; clear H.
    unfold Read in Hr. destruct rc.
    + destruct (server.readChan (srv w)); inversion Hr; subst.
      exists c. split; [done|constructor].
    + destruct (server.closeChan (srv w)); inversion Hr; subst.
      exists c. split; [done|constructor].
  - inversion H; subst; clear H. unfold Write.
    destruct (server.isConnClosed (srv w)); [exists c; split; [done|constructor]|].
    destruct (server.clients (srv w) !! connID) as [q|] eqn:Hk;
      [|exists c; split; [done|constructor]].
    destruct (winv_lookup _ _ _ _ Hinv Hk) as (cq & Hcq & Hidq & Hq).
    rewrite Hcq.
    destruct (client.isConnClosed cq) eqn:Hcl; [exists c; split; [done|constructor]|].
    cbn. destruct (decide (q = p)) as [->|Hne].
    + rewrite Hc in Hcq. inversion Hcq; subst cq. rewrite <- Hidq.
      exists (writeData (client.connID c) payload c).
      rewrite list_lookup_insert_eq by done. split; [done|].
      by apply touched_write.
    + exists c. rewrite list_lookup_insert_ne by done. split; [done|constructor].
  - inversion H; subst; clear H. unfold CloseConn.
    destruct (server.clients (srv w) !! connID) as [q|];
      [|exists c; split; [done|constructor]].
    cbn. destruct (decide (q = p)) as [->|Hne].
    + exists (signalClose c). rewrite list_lookup_alter_eq, Hc. split; [done|].
      apply (touched_signal w _ p c 1).
    + exists c. rewrite list_lookup_alter_ne by done. split; [done|constructor].
  - inversion H; subst; clear H. unfold CloseSignal. cbn.
    destruct (foldr_signalClose_iter (map_to_list (server.clients (srv w)))
                (heap w) p c Hc) as [n Hn].
    eexists. split; [exact Hn|]. apply touched_signal.
  - unfold CloseWait in H. destruct (server.completeCloseChan (srv w)); [done|].
    inversion H; subst. exists c. split; [done|constructor].
Qed.

(** A connection object that appears in a step is the one built for a
    Connect datagram. *)
Lemma step_born params l w w' p c' :
  winv params w → step l w = Some w' → heap w !! p = None → heap w' !! p = Some c' →
  ∃ a message,
    l = Conn (CaseDefault (Some (a, message))) ∧ Type_ message = MsgConnect ∧
    p = length (heap w) ∧
    c' = client.set_writeChan [NewAck (server.nextClientID (srv w)) 0]
           (newClient (srv w) a).
Proof.
  intros Hinv H Hn Hc'.
  assert (length (heap w') = length (heap w) → False) as Hgrow.
  { intros E. apply lookup_ge_None in Hn. apply lookup_lt_Some in Hc'. lia. }
  destruct l as [|cs|q sel|rc|connID payload|connID| |]; cbn in H.
  - destruct (tickerStopped w); inversion H; subst. by destruct Hgrow.
  - unfold handleConn in H. destruct (demux w); [|done]. cbn [negb] in H.
    destruct cs as [| |[[a message]|]].
    + destruct (server.closeChan (srv w)); [done|].
      destruct (_ =? _)%nat; inversion H; subst; by destruct Hgrow.
    + destruct (server.closeClientChan (srv w)); [done|].
      destruct (_ && _); inversion H; subst; by destruct Hgrow.
    + inversion H; subst; clear H. unfold onDatagram in *.
      destruct (Type_ message) eqn:Hty.
      * destruct (server.isConnClosed (srv w)); [by destruct Hgrow|].
        cbn in Hc'. apply lookup_app_Some in Hc' as [Hc'|[Hge Hc']]; [congruence|].
        apply lookup_ge_None in Hn.
        destruct (p - length (heap w))%nat as [|n] eqn:Hp; [|by destruct n].
        cbn in Hc'. inversion Hc'; subst c'. exists a, message.
        split_and!; try done. lia.
      * destruct (server.clients (srv w) !! ConnID message);
          [|by destruct Hgrow]. destruct Hgrow. cbn. apply length_alter.
      * destruct (server.clients (srv w) !! ConnID message);
          [|by destruct Hgrow]. destruct Hgrow. cbn. apply length_alter.
    + inversion H; subst. by destruct Hgrow.
  - destruct (eventsStep_inv _ _ _ _ H)
      as (cq & cq' & es & st & Hin & Hcq & Hh & Eh & _).
    destruct Hgrow. rewrite Eh. apply length_insert.
  - destruct (Read rc w) as [[w1 r]|] eqn:Hr; inversion H; subst; clear H.
    unfold Read in Hr. destruct rc.
    + destruct (server.readChan (srv w)); inversion Hr; subst. by destruct Hgrow.
    + destruct (server.closeChan (srv w)); inversion Hr; subst. by destruct Hgrow.
  - inversion H; subst; clear H. destruct Hgrow. unfold Write.
    destruct (server.isConnClosed (srv w)); [done|].
    destruct (server.clients (srv w) !! connID) as [q|]; [|done].
    destruct (heap w !! q); [|done].
    destruct (client.isConnClosed _); [done|]. cbn. apply length_insert.
  - inversion H; subst; clear H. destruct Hgrow. unfold CloseConn.
    destruct (server.clients (srv w) !! connID) as [q|]; [|done].
    cbn. apply length_alter.
  - inversion H; subst; clear H. destruct Hgrow. unfold CloseSignal. cbn.
    apply foldr_signalClose_length.
  - unfold CloseWait in H. destruct (server.completeCloseChan (srv w)); [done|].
    inversion H; subst. by destruct Hgrow.
Qed.

(** Only a round of a loop writes to the socket. *)
Lemma step_wire l w w' :
  step l w = Some w' →
  wire w' = wire w ∨
  ∃ p sel c c' es st,
    l = Events p sel ∧ heap w !! p = Some c ∧
    handleEvents (tickPending w) sel c = Some (c', es, st) ∧
    wire w' = wire w ++ ((fun m => (p, client.addr c, m)) <$> sends es).
Proof.
  intros H. destruct l as [|cs|q sel|rc|connID payload|connID| |]; cbn in H.
  - destruct (tickerStopped w); inversion H; subst. by left.
  - unfold handleConn in H. destruct (demux w); [|done]. cbn [negb] in H.
    destruct cs as [| |[[a message]|]].
    + destruct (server.closeChan (srv w)); [done|].
      destruct (_ =? _)%nat; inversion H; subst; by left.
    + destruct (server.closeClientChan (srv w)); [done|].
      destruct (_ && _); inversion H; subst; by left.
    + inversion H; subst; clear H. unfold onDatagram. left.
      destruct (Type_ message).
      * by destruct (server.isConnClosed (srv w)).
      * by destruct (server.clients (srv w) !! ConnID message).
      * by destruct (server.clients (srv w) !! ConnID message).
    + inversion H; subst. by left.
  - destruct (eventsStep_inv _ _ _ _ H)
      as (cq & cq' & es & st & Hin & Hcq & Hh & Eh & El & Elog & Ew & _).
    right. by exists q, sel, cq, cq', es, st.
  - destruct (Read rc w) as [[w1 r]|] eqn:Hr; inversion H; subst; clear H.
    unfold Read in Hr. left. destruct rc.
    + by destruct (server.readChan (srv w)); inversion Hr; subst.
    + by destruct (server.closeChan (srv w)); inversion Hr; subst.
  - inversion H; subst; clear H. left. unfold Write.
    destruct (server.isConnClosed (srv w)); [done|].
    destruct (server.clients (srv w) !! connID) as [q|]; [|done].
    destruct (heap w !! q); [|done].
    by destruct (client.isConnClosed _).
  - inversion H; subst; clear H. left. unfold CloseConn.
    by destruct (server.clients (srv w) !! connID).
  - inversion H; subst. by left.
  - unfold CloseWait in H. destruct (server.completeCloseChan (srv w)); [done|].
    inversion H; subst. by left.
Qed.

(** ** What a round of the loop leaves alone, and what it sends *)

Lemma slideWindowAdvance_out (P : Message → Prop) pending c c' sent :
  client.slideWindowAdvance pending c = (c', sent) →
  Forall P pending →
  (∀ k m, client.pendingReSendMessages c !! k = Some m → P m) →
  Forall P sent ∧
  Forall P (client.pendingSendMessages c') ∧
  (∀ k m, client.pendingReSendMessages c' !! k = Some m → P m).
Proof.
  revert c c' sent. induction pending as [|m rest IH]; intros c c' sent H Hp Hr; cbn in H.
  - inversion H; subst. split_and!; done.
  - apply Forall_cons in Hp as [Hm Hrest]. destruct (_ <? _).
    + destruct (client.slideWindowAdvance rest _) as [c4 sent'] eqn:E.
      inversion H; subst. apply IH in E as (E1 & E2 & E3); try done.
      * split_and!; try done. by constructor.
      * cfields c. intros k m' Hk.
        apply lookup_insert_Some in Hk as [[_ <-]|[_ Hk]]; eauto.
    + inversion H; subst. split_and!; try done. by constructor.
Qed.

Lemma processAckMessage_out (P : Message → Prop) c msg c' sent :
  client.processAckMessage c msg = (c', sent) →
  Forall P (client.pendingSendMessages c) →
  (∀ k m, client.pendingReSendMessages c !! k = Some m → P m) →
  Forall P sent ∧
  Forall P (client.pendingSendMessages c') ∧
  (∀ k m, client.pendingReSendMessages c' !! k = Some m → P m).
Proof.
  unfold client.processAckMessage, client.processPendingSendMessages.
  intros H Hp Hr.
  assert (∀ k m, delete (SeqNum msg) (client.pendingReSendMessages c) !! k = Some m
                 → P m) as Hr'.
  { intros k m Hk. apply lookup_delete_Some in Hk as [_ Hk]. eauto. }
  cfields c. destruct slideWindow as [|k rest].
  { inversion H; subst. cbn. done. }
  destruct (k =? SeqNum msg).
  - eapply slideWindowAdvance_out; [exact H| |]; done.
  - inversion H; subst. cbn. done.
Qed.

Lemma handleEvents_keeps tick sel c c' es st :
  handleEvents tick sel c = Some (c', es, st) →
  client.connID c' = client.connID c ∧
  client.addr c' = client.addr c ∧
  client.seqNum c' = client.seqNum c ∧
  client.receivedMessageSeqNum c' = client.receivedMessageSeqNum c ∧
  client.isClosed c' = client.isClosed c.
Proof.
  intros H. unfold handleEvents in H. rewrite handleEvents_head in H.
  set (c0 := client.set_pendingReceivedMessageQueue [] c) in *.
  assert (client.connID c0 = client.connID c ∧ client.addr c0 = client.addr c ∧
          client.seqNum c0 = client.seqNum c ∧
          client.receivedMessageSeqNum c0 = client.receivedMessageSeqNum c ∧
          client.isClosed c0 = client.isClosed c) as (E1 & E2 & E3 & E4 & E5).
  { subst c0. by cfields c. }
  rewrite <- E1, <- E2, <- E3, <- E4, <- E5. clearbody c0. clear E1 E2 E3 E4 E5.
  destruct (client.isLost c0 =? 0); cbn [negb] in H.
  2: { inversion H; subst. by cfields c0. }
  destruct (match sel with
            | SelWrite => onWriteChan c0
            | SelEpoch => onEpoch tick c0
            | SelRecv => onReceived c0
            end) as [[[c1 es1] st1]|] eqn:Hb; [|done].
  cbn in H. inversion H; subst c' es st; clear H.
  destruct sel.
  - unfold onWriteChan in Hb. destruct (client.writeChan c0) as [|message rest]; [done|].
    destruct (negb _).
    + destruct (Type_ message).
      * inversion Hb; subst. by cfields c0.
      * destruct (client.processPendingSendMessages _) as [c4 sent] eqn:E.
        inversion Hb; subst.
        apply slideWindowAdvance_frame in E. rewrite E. by cfields c0.
      * inversion Hb; subst. by cfields c0.
    + inversion Hb; subst. by cfields c0.
  - unfold onEpoch in Hb. destruct tick; [|done]. cbn [negb] in Hb.
    destruct (_ >? _); inversion Hb; subst; by cfields c0.
  - unfold onReceived in Hb.
    destruct (client.receivedMessageChan c0) as [|msg rest]; [done|].
    destruct (Type_ msg).
    + destruct (client.checkCloseComplete _).
      * inversion Hb; subst. by cfields c0.
      * rewrite prepareReadMessage_eq in Hb. inversion Hb; subst. by cfields c0.
    + pose proof (processReceivedMessage_frame
                    (client.set_receivedMessageChan rest c0) msg) as Hf.
      destruct (client.checkCloseComplete _).
      * inversion Hb; subst. cbn. rewrite Hf. by cfields c0.
      * rewrite prepareReadMessage_eq in Hb. inversion Hb; subst.
        cbn. rewrite Hf. by cfields c0.
    + destruct (client.processAckMessage _ _) as [c4 sent] eqn:E.
      apply processAckMessage_frame in E.
      destruct (client.checkCloseComplete _).
      * inversion Hb; subst. cbn. rewrite E. by cfields c0.
      * rewrite prepareReadMessage_eq in Hb. inversion Hb; subst.
        cbn. rewrite E. by cfields c0.
Qed.

Lemma sends_cons_Send m es : sends (Send m :: es) = m :: sends es.
Proof. done. Qed.

Lemma handleEvents_out tick sel c c' es st :
  out_ok c →
  handleEvents tick sel c = Some (c', es, st) →
  out_ok c' ∧ Forall (fun m => ConnID m = client.connID c) (sends es).
Proof.
  intros (O1 & O2 & O3) H.
  destruct (handleEvents_keeps _ _ _ _ _ _ H) as (Eid & _).
  unfold out_ok. rewrite Eid.
  set (P := fun m => ConnID m = client.connID c) in *.
  unfold handleEvents in H. rewrite handleEvents_head in H.
  set (c0 := client.set_pendingReceivedMessageQueue [] c) in *.
  assert (client.writeChan c0 = client.writeChan c ∧
          client.pendingSendMessages c0 = client.pendingSendMessages c ∧
          client.pendingReSendMessages c0 = client.pendingReSendMessages c ∧
          client.connID c0 = client.connID c) as (E1 & E2 & E3 & E4).
  { subst c0. by cfields c. }
  rewrite <- E1 in O1. rewrite <- E2 in O2. rewrite <- E3 in O3.
  clearbody c0. clear E1 E2 E3.
  destruct (client.isLost c0 =? 0); cbn [negb] in H.
  2: { inversion H; subst. rewrite sends_ToReadChan. by cfields c0. }
  destruct (match sel with
            | SelWrite => onWriteChan c0
            | SelEpoch => onEpoch tick c0
            | SelRecv => onReceived c0
            end) as [[[c1 es1] st1]|] eqn:Hb; [|done].
  cbn in H. inversion H; subst c' es st; clear H.
  rewrite sends_app, sends_ToReadChan. cbn [app].
  destruct sel.
  - unfold onWriteChan in Hb.
    destruct (client.writeChan c0) as [|message rest] eqn:Hw; [done|].
    apply Forall_cons in O1 as [Hm Hrest].
    destruct (negb _).
    + destruct (Type_ message).
      * inversion Hb; subst. cbn. split_and!; try done; by cfields c0.
      * destruct (client.processPendingSendMessages _) as [c4 sent] eqn:E.
        inversion Hb; subst. rewrite sends_Send.
        pose proof (slideWindowAdvance_frame _ _ _ _ E) as Hf.
        apply (slideWindowAdvance_out P) in E as (S1 & S2 & S3).
        -- split_and!; try done. rewrite Hf. by cfields c0.
        -- cfields c0. apply Forall_app. split; [done|]. by repeat constructor.
        -- by cfields c0.
      * inversion Hb; subst. cbn. split_and!; try (by cfields c0).
        by repeat constructor.
    + inversion Hb; subst. cbn. split_and!; try done; by cfields c0.
  - unfold onEpoch in Hb. destruct tick; [|done]. cbn [negb] in Hb.
    destruct (_ >? _); inversion Hb; subst.
    + cbn. split_and!; try done; by cfields c0.
    + change (sends (TickTaken :: ?l)) with (sends l).
      rewrite sends_app, sends_Send. split_and!; try (by cfields c0).
      apply Forall_app. split.
      * apply Forall_forall. intros m Hm.
        unfold client.processPendingReSendMessages in Hm.
        apply list_elem_of_fmap in Hm as ([k m'] & -> & Hkm).
        apply elem_of_map_to_list in Hkm. cfields c0. exact (O3 k m' Hkm).
      * cbn. repeat constructor. subst P. cbn. done.
  - unfold onReceived in Hb.
    destruct (client.receivedMessageChan c0) as [|msg rest]; [done|].
    destruct (Type_ msg).
    + destruct (client.checkCloseComplete _).
      * inversion Hb; subst. cbn. split_and!; try done; by cfields c0.
      * rewrite prepareReadMessage_eq in Hb. inversion Hb; subst.
        cbn [fmap list_fmap app]. rewrite sends_ToReadChan.
        split_and!; try done; by cfields c0.
    + pose proof (processReceivedMessage_frame
                    (client.set_receivedMessageChan rest c0) msg) as Hf.
      destruct (client.checkCloseComplete _).
      * inversion Hb; subst. cbn. rewrite Hf. split_and!; try done; by cfields c0.
      * rewrite prepareReadMessage_eq in Hb. inversion Hb; subst.
        cbn [fmap list_fmap app]. rewrite sends_ToReadChan. cbn. rewrite Hf.
        split_and!; try done; by cfields c0.
    + destruct (client.processAckMessage _ _) as [c4 sent] eqn:E.
      pose proof (processAckMessage_frame _ _ _ _ E) as Hf.
      apply (processAckMessage_out P) in E as (S1 & S2 & S3);
        [|by cfields c0|by cfields c0].
      assert (Forall P (client.writeChan c4)) as Hw4.
      { rewrite Hf. by cfields c0. }
      destruct (client.checkCloseComplete _).
      * inversion Hb; subst. rewrite sends_Send. cbn. done.
      * rewrite prepareReadMessage_eq in Hb. inversion Hb; subst.
        rewrite sends_app, sends_Send, sends_ToReadChan, app_nil_r. cbn. done.
Qed.

Lemma iter_signalClose_out n c :
  client.connID (Nat.iter n signalClose c) = client.connID c ∧
  client.addr (Nat.iter n signalClose c) = client.addr c ∧
  client.seqNum (Nat.iter n signalClose c) = client.seqNum c ∧
  (out_ok c → out_ok (Nat.iter n signalClose c)).
Proof.
  induction n as [|n (E1 & E2 & E3 & E4)]; [done|].
  change (Nat.iter (S n) signalClose c) with (signalClose (Nat.iter n signalClose c)).
  revert E1 E2 E3 E4. generalize (Nat.iter n signalClose c). intros c1 E1 E2 E3 E4.
  unfold out_ok in *. cfields c1. split_and!; try done.
Qed.

Lemma touched_out w l p c c' :
  touched w l p c c' →
  client.connID c' = client.connID c ∧
  client.addr c' = client.addr c ∧
  (out_ok c → out_ok c').
Proof.
  intros [|n|a message _ _ Hid|a message _ _ Hid|payload _ _|sel c1 es st _ _ Hh].
  - done.
  - by destruct (iter_signalClose_out n c) as (? & ? & _ & ?).
  - split_and!; try by cfields c. intros (O1 & O2 & O3).
    unfold out_ok, routeData. cfields c. split_and!; try done.
    apply Forall_app. split; [done|]. by repeat constructor.
  - split_and!; try by cfields c.
  - split_and!; try by cfields c. intros (O1 & O2 & O3).
    unfold out_ok, writeData. cfields c. split_and!; try done.
    apply Forall_app. split; [done|]. by repeat constructor.
  - destruct (handleEvents_keeps _ _ _ _ _ _ Hh) as (? & ? & _).
    split_and!; try done. intros Ho. by destruct (handleEvents_out _ _ _ _ _ _ Ho Hh).
Qed.

Lemma step_wire_ok params l w w' :
  winv params w →
  (∀ p c, heap w !! p = Some c → out_ok c) → wire_ok w →
  step l w = Some w' →
  (∀ p c, heap w' !! p = Some c → out_ok c) ∧ wire_ok w'.
Proof.
  intros Hinv Hout Hwire H. split.
  - intros p c' Hc'. destruct (heap w !! p) as [c|] eqn:Hc.
    + destruct (step_touched _ _ _ _ _ _ Hinv H Hc) as (c'' & Hc'' & Ht).
      rewrite Hc' in Hc''. inversion Hc''; subst c''.
      destruct (touched_out _ _ _ _ _ Ht) as (_ & _ & Ho). eauto.
    + destruct (step_born _ _ _ _ _ _ Hinv H Hc Hc') as (a & message & _ & _ & _ & ->).
      unfold out_ok. cbn. split_and!; try done. by repeat constructor.
  - assert (∀ p a m, (p, a, m) ∈ wire w →
            ∃ c, heap w' !! p = Some c ∧ client.addr c = a ∧ ConnID m = client.connID c)
      as Hold.
    { intros p a m Hin. destruct (Hwire p a m Hin) as (c & Hc & Ha & Hm).
      destruct (step_touched _ _ _ _ _ _ Hinv H Hc) as (c' & Hc' & Ht).
      destruct (touched_out _ _ _ _ _ Ht) as (E1 & E2 & _).
      exists c'. split_and!; congruence. }
    destruct (step_wire _ _ _ H) as [E|(p & sel & c & c1 & es & st & -> & Hc & Hh & E)];
      unfold wire_ok; rewrite E; [done|].
    intros q a m Hin. apply elem_of_app in Hin as [Hin|Hin]; [by apply Hold|].
    apply list_elem_of_fmap in Hin as (m' & Heq & Hm'). inversion Heq; subst q a m'.
    destruct (step_touched _ _ _ _ _ _ Hinv H Hc) as (c' & Hc' & Ht).
    destruct (touched_out _ _ _ _ _ Ht) as (E1 & E2 & _).
    destruct (handleEvents_out _ _ _ _ _ _ (Hout p c Hc) Hh) as [_ Hs].
    rewrite Forall_forall in Hs. exists c'. split_and!; try done.
    rewrite E1. by apply Hs.
Qed.

Lemma reachable_wire_ok params w :
  reachable params w →
  (∀ p c, heap w !! p = Some c → out_ok c) ∧ wire_ok w.
Proof.
  intros [ls H].
  assert (∀ w0, winv params w0 →
            (∀ p c, heap w0 !! p = Some c → out_ok c) ∧ wire_ok w0 →
            run ls w0 = Some w →
            (∀ p c, heap w !! p = Some c → out_ok c) ∧ wire_ok w) as Hgen.
  { clear H. induction ls as [|l ls IH]; intros w0 Hinv [Ho Hw] H; cbn in H.
    - by inversion H; subst.
    - destruct (step l w0) as [w1|] eqn:Hs; [|done].
      apply (IH w1); [by eapply step_winv|by eapply step_wire_ok|done]. }
  apply (Hgen (NewServer params)); [apply NewServer_winv| |done].
  split; [done|]. intros p a m Hin. cbn in Hin. by apply elem_of_nil in Hin.
Qed.

(** X8.  Every datagram the server has written was written to the address
    of the connection it was written for (the address its Connect came
    from, which never changes) and carries the id of that connection: no
    peer is sent a message of another connection. *)
Theorem datagrams_go_to_their_peer params w p a m :
  reachable params w →
  (p, a, m) ∈ wire w →
  ∃ c, heap w !! p = Some c ∧ client.addr c = a ∧ ConnID m = client.connID c.
Proof. intros Hr Hin. destruct (reachable_wire_ok _ _ Hr) as [_ Hw]. by apply Hw. Qed.

Lemma datagrams_go_to_their_peer_witness :
  ∃ c, heap (world_after run_two_peers) !! 1%nat = Some c ∧
       client.addr c = 8 ∧ ConnID (NewAck 1 0) = client.connID c.
Proof.
  apply (datagrams_go_to_their_peer params1 (world_after run_two_peers)).
  - exists run_two_peers. vm_compute. reflexivity.
  - apply (list_elem_of_lookup_2 _ 1%nat). vm_compute. reflexivity.
Defined.

(** ** Sequence numbers given by [Write] *)

Lemma touched_seqNum w l p c c' :
  touched w l p c c' →
  isWriteOf (client.connID c) l = false →
  client.seqNum c' = client.seqNum c.
Proof.
  intros [|n|a message _ _ Hid|a message _ _ Hid|payload Hl _|sel c1 es st _ _ Hh] Hw.
  - done.
  - by destruct (iter_signalClose_out n c) as (_ & _ & ? & _).
  - by cfields c.
  - by cfields c.
  - subst l. cbn in Hw. by rewrite bool_decide_eq_true_2 in Hw.
  - by destruct (handleEvents_keeps _ _ _ _ _ _ Hh) as (_ & _ & ? & _).
Qed.

Lemma run_seqNum params ls w w' p c :
  winv params w → run ls w = Some w' → heap w !! p = Some c →
  Forall (fun l => isWriteOf (client.connID c) l = false) ls →
  ∃ c', heap w' !! p = Some c' ∧ client.seqNum c' = client.seqNum c.
Proof.
  revert w c. induction ls as [|l ls IH]; intros w c Hinv H Hc Hno; cbn in H.
  - inversion H; subst. eauto.
  - destruct (step l w) as [w1|] eqn:Hs; [|done].
    apply Forall_cons in Hno as [Hl Hno].
    destruct (step_touched _ _ _ _ _ _ Hinv Hs Hc) as (c1 & Hc1 & Ht).
    destruct (touched_out _ _ _ _ _ Ht) as (Eid & _).
    pose proof (touched_seqNum _ _ _ _ _ Ht Hl) as Eseq.
    destruct (IH w1 c1 (step_winv _ _ _ _ Hinv Hs) H Hc1) as (c' & Hc' & E).
    { by rewrite Eid. }
    exists c'. split; [done|congruence].
Qed.

(** X9.  [Write] numbers the messages of a connection consecutively: of two
    successful writes on a connection with no other write on it in
    between, whatever else happens in between, the second message carries
    the sequence number of the first plus one (as an [int32]); each carries
    the id, the payload and the length of the payload it was given. *)
Theorem Write_numbers_consecutive params w id payload1 payload2 ls w' :
  reachable params w →
  (Write id payload1 w).2 = None →
  run ls (Write id payload1 w).1 = Some w' →
  Forall (fun l => isWriteOf id l = false) ls →
  (Write id payload2 w').2 = None →
  ∃ p c1 c2 n,
    heap (Write id payload1 w).1 !! p = Some c1 ∧
    heap (Write id payload2 w').1 !! p = Some c2 ∧
    client.connID c1 = id ∧ client.connID c2 = id ∧
    last (client.writeChan c1) = Some (NewData id n (len payload1) payload1) ∧
    last (client.writeChan c2)
    = Some (NewData id (wrap32 (n + 1)) (len payload2) payload2).
Proof.
  intros Hr Hw1 Hrun Hno Hw2.
  pose proof (reachable_winv _ _ Hr) as Hinv.
  pose proof (Write_winv _ id payload1 _ Hinv) as Hinv1.
  unfold Write in Hw1, Hrun, Hinv1 |- *.
  destruct (server.isConnClosed (srv w)); [done|].
  destruct (server.clients (srv w) !! id) as [p|] eqn:Hk; [|done].
  destruct (winv_lookup _ _ _ _ Hinv Hk) as (c & Hc & Hid & Hp).
  rewrite Hc in Hw1, Hrun, Hinv1 |- *.
  destruct (client.isConnClosed c); [done|].
  cbn [fst snd] in *.
  fold (writeData id payload1 c) in Hrun, Hinv1 |- *.
  set (w1 := set_heap (<[p := writeData id payload1 c]> (heap w)) w) in *.
  assert (heap w1 !! p = Some (writeData id payload1 c)) as Hc1.
  { subst w1. cbn. apply list_lookup_insert_eq. by eapply lookup_lt_Some. }
  assert (client.connID (writeData id payload1 c) = id) as Hid1 by (by cfields c).
  destruct (run_seqNum _ _ _ _ _ _ Hinv1 Hrun Hc1) as (c' & Hc' & Eseq).
  { by rewrite Hid1. }
  pose proof (run_winv _ _ _ _ Hinv1 Hrun) as Hinv'.
  unfold Write in Hw2 |- *.
  destruct (server.isConnClosed (srv w')); [done|].
  destruct (server.clients (srv w') !! id) as [p'|] eqn:Hk'; [|done].
  destruct (winv_lookup _ _ _ _ Hinv' Hk') as (c'' & Hc'' & Hid' & Hp').
  assert (p' = p) as -> by lia.
  rewrite Hc' in Hc''. inversion Hc''; subst c''.
  rewrite Hc' in Hw2 |- *.
  destruct (client.isConnClosed c'); [done|].
  cbn [fst snd]. fold (writeData id payload2 c').
  exists p, (writeData id payload1 c), (writeData id payload2 c'),
         (wrap32 (client.seqNum c + 1)).
  split_and!; try done.
  - cbn. apply list_lookup_insert_eq. by eapply lookup_lt_Some.
  - unfold writeData. cfields c. by rewrite last_snoc.
  - assert (client.seqNum c' = wrap32 (client.seqNum c + 1)) as <-.
    { rewrite Eseq. by cfields c. }
    unfold writeData. cfields c'. by rewrite last_snoc.
Qed.

Lemma Write_numbers_consecutive_witness :
  ∃ p c1 c2 n,
    heap (Write 0 None (world_after run_connect)).1 !! p = Some c1 ∧
    heap (Write 0 (Some [Byte.x6c])
            (world_after (run_connect ++ [CallWrite 0 None] ++ run_between_writes))).1
      !! p = Some c2 ∧
    client.connID c1 = 0 ∧ client.connID c2 = 0 ∧
    last (client.writeChan c1) = Some (NewData 0 n (len None) None) ∧
    last (client.writeChan c2)
    = Some (NewData 0 (wrap32 (n + 1)) (len (Some [Byte.x6c])) (Some [Byte.x6c])).
Proof.
  apply (Write_numbers_consecutive params1 (world_after run_connect) 0 None
           (Some [Byte.x6c]) run_between_writes).
  - exists run_connect. vm_compute. reflexivity.
  - vm_compute. reflexivity.
  - vm_compute. reflexivity.
  - repeat constructor.
  - vm_compute. reflexivity.
Defined.

(** ** Routing of datagrams *)

Lemma alter_as_insert {A} (f : A → A) p (h : list A) x :
  h !! p = Some x → alter f p h = <[p := f x]> h.
Proof.
  intros Hp. apply list_eq. intros q. destruct (decide (p = q)) as [<-|Hne].
  - rewrite list_lookup_alter_eq, Hp, list_lookup_insert_eq; [done|].
    by eapply lookup_lt_Some.
  - by rewrite list_lookup_alter_ne, list_lookup_insert_ne.
Qed.



(** X11.  A Connect is never recognised as a repeat: two Connect datagrams
    from one address, handled while the server is not closing, build two
    connections with that address and two consecutive ids, and move the
    counter by two. *)
Theorem connect_twice_builds_two w a message1 message2 :
  demux w = true →
  server.isClosed (srv w) = 0 →
  Type_ message1 = MsgConnect →
  Type_ message2 = MsgConnect →
  ∃ w' c1 c2,
    run [Conn (CaseDefault (Some (a, message1)));
         Conn (CaseDefault (Some (a, message2)))] w = Some w' ∧
    heap w' = heap w ++ [c1; c2] ∧
    client.addr c1 = a ∧ client.addr c2 = a ∧
    client.connID c1 = server.nextClientID (srv w) ∧
    client.connID c2 = server.nextClientID (srv w) + 1 ∧
    server.nextClientID (srv w') = server.nextClientID (srv w) + 2 ∧
    loops w' = {[S (length (heap w))]} ∪ ({[length (heap w)]} ∪ loops w).
Proof.
  intros Hd Hcl Hty1 Hty2.
  assert (Hone : ∀ v message, demux v = true → server.isClosed (srv v) = 0 →
            Type_ message = MsgConnect →
            step (Conn (CaseDefault (Some (a, message)))) v
            = Some (set_loops ({[length (heap v)]} ∪ loops v)
                      (set_heap (heap v ++ [client.set_writeChan
                                              [NewAck (server.nextClientID (srv v)) 0]
                                              (newClient (srv v) a)])
                         (set_srv (server.set_nextClientID
                                     (server.nextClientID (srv v) + 1)
                                     (server.set_clients
                                        (<[server.nextClientID (srv v) := length (heap v)]>
                                           (server.clients (srv v))) (srv v))) v)))).
  { intros v message Hv Hc Hty. unfold step, handleConn, onDatagram.
    rewrite Hv, Hty. unfold server.isConnClosed. rewrite Hc. reflexivity. }
  unfold run. rewrite (Hone w message1 Hd Hcl Hty1).
  rewrite (Hone _ message2); [|by destruct w|by destruct w as [[]]|done].
  destruct w as [s h ? ? ? ? ? ? ? ?]. destruct s. cbn in *.
  eexists _, _, _. split; [reflexivity|]. cbn.
  split; [by rewrite <- app_assoc|].
  split_and!; try done; try (cbn; lia).
  by rewrite length_app, Nat.add_1_r.
Qed.

Lemma connect_twice_builds_two_witness :
  ∃ w' c1 c2,
    run [Conn (CaseDefault (Some (7, connect1)));
         Conn (CaseDefault (Some (7, connect1)))] (NewServer params1) = Some w' ∧
    heap w' = heap (NewServer params1) ++ [c1; c2] ∧
    client.addr c1 = 7 ∧ client.addr c2 = 7 ∧
    client.connID c1 = server.nextClientID (srv (NewServer params1)) ∧
    client.connID c2 = server.nextClientID (srv (NewServer params1)) + 1 ∧
    server.nextClientID (srv w') = server.nextClientID (srv (NewServer params1)) + 2 ∧
    loops w' = {[S (length (heap (NewServer params1)))]}
               ∪ ({[length (heap (NewServer params1))]} ∪ loops (NewServer params1)).
Proof. apply connect_twice_builds_two; reflexivity. Defined.

(** X12.  Every Data datagram for a connection is acknowledged, whatever
    its sequence number: when the loop of the connection runs and its
    [writeChan] is empty, [handleConn] taking the datagram and the loop
    taking the next message of [writeChan] writes exactly one datagram, the
    Ack with the id and the sequence number of the message, to the address
    the connection was built with.  Neither the window nor what has been
    received before is looked at, so a repeated or far-ahead message is
    acknowledged just the same. *)
Theorem data_is_acknowledged params w a message p c :
  reachable params w →
  demux w = true →
  Type_ message = MsgData →
  server.clients (srv w) !! ConnID message = Some p →
  heap w !! p = Some c →
  p ∈ loops w →
  client.writeChan c = [] →
  ∃ w', run [Conn (CaseDefault (Some (a, message))); Events p SelWrite] w = Some w' ∧
        wire w' = wire w ++ [(p, client.addr c,
                              NewAck (ConnID message) (SeqNum message))] ∧
        p ∈ loops w'.
Proof.
  intros Hr Hd Hty Hk Hc Hin Hwc. apply reachable_winv in Hr.
  destruct Hr as (_ & _ & _ & _ & _ & _ & _ & I8 & _).
  destruct (I8 p c Hc) as (_ & (Hcl & _) & Hlost & Hq & _).
  apply Hlost in Hin as Hl. specialize (Hq Hin).
  unfold run, step at 1, handleConn. rewrite Hd. cbn [negb].
  unfold onDatagram. rewrite Hty, Hk, (alter_as_insert _ _ _ _ Hc).
  unfold step, eventsStep.
  assert (loops (set_heap (<[p:=routeData message c]> (heap w)) w) = loops w) as ->
    by by destruct w.
  rewrite bool_decide_eq_true_2 by done.
  assert (heap (set_heap (<[p:=routeData message c]> (heap w)) w)
          = <[p:=routeData message c]> (heap w)) as -> by by destruct w.
  rewrite list_lookup_insert_eq by by eapply lookup_lt_Some.
  assert (handleEvents
            (tickPending (set_heap (<[p:=routeData message c]> (heap w)) w))
            SelWrite (routeData message c)
          = Some (client.set_writeChan [] (routeData message c),
                  [Send (NewAck (ConnID message) (SeqNum message))], Looping)) as ->.
  { unfold handleEvents, routeData, onWriteChan, client.isConnClosed.
    cfields c. subst. reflexivity. }
  eexists. split; [reflexivity|]. destruct w. cbn. split; [|done].
  by cfields c.
Qed.

Lemma data_is_acknowledged_witness :
  ∃ w', run [Conn (CaseDefault (Some (9, data1 40))); Events 0%nat SelWrite]
            (world_after run_connect) = Some w' ∧
        wire w' = wire (world_after run_connect) ++ [(0%nat, 7, NewAck 0 40)].
Proof.
  destruct (data_is_acknowledged params1 (world_after run_connect) 9 (data1 40)
              0%nat (default (newClient (srv (NewServer params1)) 0)
                             (heap (world_after run_connect) !! 0%nat)))
    as (w' & H1 & H2 & _).
  - exists run_connect. vm_compute. reflexivity.
  - vm_compute. reflexivity.
  - reflexivity.
  - vm_compute. reflexivity.
  - vm_compute. reflexivity.
  - vm_compute. reflexivity.
  - vm_compute. reflexivity.
  - exists w'. split; [exact H1|exact H2].
Defined.

(** X13.  Between two rounds of a loop that still runs, the queue of
    messages to hand to [Read] is empty and the connection is not lost:
    whatever a round puts in the queue it hands over before the round ends,
    and the round that sets the lost flag returns.  So neither test at the
    head of the loop ever fires, and a round is its [select] alone. *)
Theorem queue_empty_between_rounds params w p c :
  reachable params w →
  heap w !! p = Some c →
  p ∈ loops w →
  client.pendingReceivedMessageQueue c = [] ∧
  client.isLost c = 0 ∧
  ∀ tick sel,
    handleEvents tick sel c
    = match sel with
      | SelWrite => onWriteChan c
      | SelEpoch => onEpoch tick c
      | SelRecv => onReceived c
      end.
Proof.
  intros Hr Hc Hin. apply reachable_winv in Hr.
  destruct Hr as (_ & _ & _ & _ & _ & _ & _ & I8 & _).
  destruct (I8 p c Hc) as (_ & _ & Hlost & Hq & _).
  apply Hlost in Hin as Hl. specialize (Hq Hin). split; [done|]. split; [done|].
  intros tick sel. unfold handleEvents. rewrite Hq, Hl. cbn.
  destruct (match sel with
            | SelWrite => onWriteChan c
            | SelEpoch => onEpoch tick c
            | SelRecv => onReceived c
            end) as [[[c1 es1] st1]|]; reflexivity.
Qed.

Lemma queue_empty_between_rounds_witness :
  client.pendingReceivedMessageQueue
    (default (newClient (srv (NewServer params1)) 0)
             (heap (world_after run_reorder) !! 0%nat)) = [] ∧
  client.isLost
    (default (newClient (srv (NewServer params1)) 0)
             (heap (world_after run_reorder) !! 0%nat)) = 0.
Proof.
  destruct (queue_empty_between_rounds params1 (world_after run_reorder) 0%nat
              (default (newClient (srv (NewServer params1)) 0)
                       (heap (world_after run_reorder) !! 0%nat)))
    as (H1 & H2 & _); [| | |by split].
  - exists run_reorder. vm_compute. reflexivity.
  - vm_compute. reflexivity.
  - vm_compute. reflexivity.
Defined.

(** ** Connections whose loop has returned *)






(** ** One ticker for all connections *)

Lemma stops_app es1 es2 : stops (es1 ++ es2) = stops es1 || stops es2.
Proof. apply existsb_app. Qed.

Lemma takes_app es1 es2 : takes (es1 ++ es2) = takes es1 || takes es2.
Proof. apply existsb_app. Qed.

Lemma stops_Send ms : stops (Send <$> ms) = false.
Proof. by induction ms. Qed.

Lemma takes_Send ms : takes (Send <$> ms) = false.
Proof. by induction ms. Qed.

Lemma stops_ToReadChan ms : stops (ToReadChan <$> ms) = false.
Proof. by induction ms. Qed.

Lemma takes_ToReadChan ms : takes (ToReadChan <$> ms) = false.
Proof. by induction ms. Qed.

Lemma foldl_applyEffect_ticker p a es w :
  tickerStopped (foldl (applyEffect p a) w es) = tickerStopped w || stops es ∧
  tickPending (foldl (applyEffect p a) w es) = tickPending w && negb (takes es).
Proof.
  revert w. induction es as [|e es IH]; intros w; cbn.
  - by rewrite orb_false_r, andb_true_r.
  - destruct (IH (applyEffect p a w e)) as [-> ->].
    destruct e; destruct w as [? ? tp ts ? ? ? ? ? ?]; cbn;
      fold (stops es); fold (takes es);
      try done; by destruct tp, ts, (stops es), (takes es).
Qed.

(** A round changes the lost flag only when it stops the ticker, and a round
    of a connection that is not lost takes a tick when it takes the
    [epochTimer.C] branch. *)
Lemma handleEvents_ticker tick sel c c' es st :
  handleEvents tick sel c = Some (c', es, st) →
  (stops es = false → client.isLost c' = client.isLost c) ∧
  (sel = SelEpoch → client.isLost c = 0 → tick = true ∧ takes es = true).
Proof.
  intros H. unfold handleEvents in H. rewrite handleEvents_head in H.
  set (c0 := client.set_pendingReceivedMessageQueue [] c) in *.
  assert (client.isLost c0 = client.isLost c) as E1 by (subst c0; by cfields c).
  rewrite <- E1. clearbody c0. clear E1.
  destruct (client.isLost c0 =? 0) eqn:Hl; cbn [negb] in H.
  2: { inversion H; subst. split; [by cfields c0|]. intros _ E. rewrite E in Hl. done. }
  destruct (match sel with
            | SelWrite => onWriteChan c0
            | SelEpoch => onEpoch tick c0
            | SelRecv => onReceived c0
            end) as [[[c1 es1] st1]|] eqn:Hb; [|done].
  cbn in H. inversion H; subst c' es st; clear H.
  rewrite stops_app, takes_app, stops_ToReadChan, takes_ToReadChan. cbn [orb].
  destruct sel.
  - split; [|done]. intros _.
    unfold onWriteChan in Hb. destruct (client.writeChan c0) as [|message rest]; [done|].
    destruct (negb _).
    + destruct (Type_ message).
      * inversion Hb; subst. by cfields c0.
      * destruct (client.processPendingSendMessages _) as [c4 sent] eqn:E.
        inversion Hb; subst.
        apply slideWindowAdvance_frame in E. rewrite E. by cfields c0.
      * inversion Hb; subst. by cfields c0.
    + inversion Hb; subst. by cfields c0.
  - unfold onEpoch in Hb. destruct tick; [|done]. cbn [negb] in Hb.
    destruct (_ >? _); inversion Hb; subst; (split; [|done]); [done|].
    intros _. by cfields c0.
  - split; [|done]. intros _.
    unfold onReceived in Hb.
    destruct (client.receivedMessageChan c0) as [|msg rest]; [done|].
    destruct (Type_ msg).
    + destruct (client.checkCloseComplete _).
      * inversion Hb; subst. by cfields c0.
      * rewrite prepareReadMessage_eq in Hb. inversion Hb; subst. by cfields c0.
    + pose proof (processReceivedMessage_frame
                    (client.set_receivedMessageChan rest c0) msg) as Hf.
      destruct (client.checkCloseComplete _).
      * inversion Hb; subst. cbn. rewrite Hf. by cfields c0.
      * rewrite prepareReadMessage_eq in Hb. inversion Hb; subst.
        cbn. rewrite Hf. by cfields c0.
    + destruct (client.processAckMessage _ _) as [c4 sent] eqn:E.
      apply processAckMessage_frame in E.
      destruct (client.checkCloseComplete _).
      * inversion Hb; subst. cbn. rewrite E. by cfields c0.
      * rewrite prepareReadMessage_eq in Hb. inversion Hb; subst.
        cbn. rewrite E. by cfields c0.
Qed.

(** What a step does to the ticker. *)
Lemma step_ticker l w w' :
  step l w = Some w' →
  (∃ p sel c c' es st,
     l = Events p sel ∧ p ∈ loops w ∧ heap w !! p = Some c ∧
     handleEvents (tickPending w) sel c = Some (c', es, st) ∧
     heap w' = <[p := c']> (heap w) ∧
     tickerStopped w' = tickerStopped w || stops es ∧
     tickPending w' = tickPending w && negb (takes es)) ∨
  (l = Tick ∧ tickerStopped w = false) ∨
  (isTick l = false ∧ isEpochRound l = false ∧
   tickerStopped w' = tickerStopped w ∧ tickPending w' = tickPending w ∧
   ∀ p, isRoundOf p l = false).
Proof.
  intros H. destruct l as [|cs|q sel|rc|connID payload|connID| |]; cbn in H.
  - right. left. by destruct (tickerStopped w).
  - right. right. unfold handleConn in H. destruct (demux w); [|done]. cbn [negb] in H.
    destruct cs as [| |[[a message]|]].
    + destruct (server.closeChan (srv w)); [done|].
      destruct (_ =? _)%nat; inversion H; subst; by destruct w.
    + destruct (server.closeClientChan (srv w)); [done|].
      destruct (_ && _); inversion H; subst; by destruct w.
    + inversion H; subst; clear H. unfold onDatagram.
      destruct (Type_ message).
      * destruct (server.isConnClosed (srv w)); by destruct w.
      * destruct (server.clients (srv w) !! ConnID message); by destruct w.
      * destruct (server.clients (srv w) !! ConnID message); by destruct w.
    + inversion H; subst. by destruct w.
  - left. unfold eventsStep in H.
    destruct (bool_decide (q ∈ loops w)) eqn:Hin; [|done].
    apply bool_decide_eq_true in Hin.
    destruct (heap w !! q) as [c|] eqn:Hc; [|done].
    destruct (handleEvents (tickPending w) sel c) as [[[c' es] st]|] eqn:Hh; [|done].
    exists q, sel, c, c', es, st.
    destruct (foldl_applyEffect q (client.addr c) es
                (set_heap (<[q := c']> (heap w)) w)) as (F1 & _).
    destruct (foldl_applyEffect_ticker q (client.addr c) es
                (set_heap (<[q := c']> (heap w)) w)) as (T1 & T2).
    cbn zeta in *.
    assert (tickerStopped (set_heap (<[q := c']> (heap w)) w) = tickerStopped w) as E1
      by by destruct w.
    assert (tickPending (set_heap (<[q := c']> (heap w)) w) = tickPending w) as E2
      by by destruct w.
    assert (heap (set_heap (<[q := c']> (heap w)) w) = <[q := c']> (heap w)) as E3
      by by destruct w.
    rewrite E1 in T1. rewrite E2 in T2. rewrite E3 in F1.
    destruct st; inversion H; subst; clear H; cbn; rewrite ?F1, ?T1, ?T2;
      split_and!; done.
  - right. right.
    destruct (Read rc w) as [[w1 r]|] eqn:Hr; inversion H; subst; clear H.
    unfold Read in Hr. destruct rc.
    + destruct (server.readChan (srv w)); inversion Hr; subst; by destruct w.
    + destruct (server.closeChan (srv w)); inversion Hr; subst; by destruct w.
  - right. right. inversion H; subst; clear H. unfold Write.
    destruct (server.isConnClosed (srv w)); [done|].
    destruct (server.clients (srv w) !! connID) as [q|]; [|done].
    destruct (heap w !! q); [|done].
    destruct (client.isConnClosed _); [done|]. by destruct w.
  - right. right. inversion H; subst; clear H. unfold CloseConn.
    destruct (server.clients (srv w) !! connID); [|done]. by destruct w.
  - right. right. inversion H; subst. by destruct w.
  - right. right. unfold CloseWait in H.
    destruct (server.completeCloseChan (srv w)); [done|].
    inversion H; subst. by destruct w.
Qed.

Lemma step_tinv params l w w' :
  winv params w → tinv w → step l w = Some w' → tinv w'.
Proof.
  intros Hinv Ht Hs p c' Hc' Hl.
  destruct (heap w !! p) as [c|] eqn:Hc.
  2: { destruct (step_born _ _ _ _ _ _ Hinv Hs Hc Hc') as (a & m & _ & _ & _ & ->).
       by destruct Hl. }
  destruct (step_ticker _ _ _ Hs)
    as [(q & sel & cq & cq' & es & st & -> & Hin & Hcq & Hh & Eh & E1 & E2)
       |[[-> Hst]|(_ & _ & E1 & _ & Hround)]].
  - rewrite E1. destruct (stops es) eqn:Hstop; [by rewrite orb_true_r|].
    rewrite orb_false_r. destruct (decide (q = p)) as [->|Hne].
    + rewrite Eh, list_lookup_insert_eq in Hc' by by eapply lookup_lt_Some.
      inversion Hc'; subst cq'. apply (Ht p c Hc).
      destruct (handleEvents_ticker _ _ _ _ _ _ Hh) as [Hk _].
      assert (cq = c) as -> by congruence.
      by rewrite <- (Hk Hstop).
    + rewrite Eh, list_lookup_insert_ne in Hc' by done.
      apply (Ht p c'); [done|done].
  - cbn in Hs. rewrite Hst in Hs. inversion Hs; subst. cbn in *.
    exfalso. specialize (Ht p c' Hc' Hl). congruence.
  - rewrite E1.
    destruct (step_calm _ _ _ _ _ _ Hinv Hs Hc (Hround p)) as (c1 & Hc1 & Hlost & _).
    apply (Ht p c Hc). congruence.
Qed.

Lemma reachable_tinv params w : reachable params w → tinv w.
Proof.
  intros [ls H].
  assert (∀ ls w0, winv params w0 → tinv w0 → run ls w0 = Some w → tinv w) as Hrun.
  { clear. intros ls. induction ls as [|l ls IH]; intros w0 Hinv Ht H; cbn in H.
    - by inversion H; subst.
    - destruct (step l w0) as [w1|] eqn:Hs; [|done].
      eapply IH; [by eapply step_winv|by eapply step_tinv|exact H]. }
  eapply Hrun; [apply NewServer_winv| |exact H].
  intros p c Hc. apply lookup_lt_Some in Hc. cbn in Hc. lia.
Qed.

Lemma stopped_run params ls w w' :
  winv params w → tickerStopped w = true → run ls w = Some w' →
  tickerStopped w' = true ∧
  Forall (fun l => isTick l = false) ls ∧
  (epochRounds ls ≤ if tickPending w then 1 else 0)%nat.
Proof.
  revert w. induction ls as [|l ls IH]; intros w Hinv Hst Hrun; cbn in Hrun.
  - inversion Hrun; subst. split_and!; try done. cbn. destruct (tickPending w'); lia.
  - destruct (step l w) as [w1|] eqn:Hs; [|done].
    pose proof (step_winv _ _ _ _ Hinv Hs) as Hinv1.
    destruct (step_ticker _ _ _ Hs)
      as [(q & sel & cq & cq' & es & st & -> & Hin & Hcq & Hh & Eh & E1 & E2)
         |[[-> Hst']|(Hnt & Hne & E1 & E2 & _)]].
    + destruct (IH w1 Hinv1) as (R1 & R2 & R3); [by rewrite E1, Hst|done|].
      split_and!; try done; [by constructor|].
      destruct Hinv as (_ & _ & _ & _ & _ & _ & _ & I8 & _).
      destruct (I8 q cq Hcq) as (_ & _ & Hlost & _). apply Hlost in Hin.
      destruct (handleEvents_ticker _ _ _ _ _ _ Hh) as [_ Hk].
      destruct sel; cbn.
      * rewrite E2 in R3. destruct (tickPending w); cbn in R3; [|done].
        destruct (tickPending w1); destruct (takes es); cbn in R3; lia.
      * destruct (Hk eq_refl Hin) as [Htick Htake].
        rewrite E2, Htick, Htake in R3. cbn in R3. rewrite Htick. lia.
      * rewrite E2 in R3. destruct (tickPending w); cbn in R3; [|done].
        destruct (tickPending w1); destruct (takes es); cbn in R3; lia.
    + congruence.
    + destruct (IH w1 Hinv1) as (R1 & R2 & R3); [congruence|done|].
      split_and!; try done; [by constructor|].
      cbn. rewrite Hne. by rewrite <- E2.
Qed.

(** X15.  The ticker of the server is the ticker of every connection, and
    the loop of a connection that is lost stops it.  So once one connection
    is lost the ticker never fires again for any connection: in whatever
    happens afterwards there is no tick, the loops of all the connections
    together take the [epochTimer.C] branch at most once (the tick that was
    still in the channel, if any), and a tick can no longer be produced.
    Nothing is retransmitted and no other silent peer is detected after
    that. *)
Theorem lost_connection_stops_all_epochs params w p c ls w' :
  reachable params w →
  heap w !! p = Some c →
  client.isLost c ≠ 0 →
  run ls w = Some w' →
  tickerStopped w' = true ∧
  step Tick w' = None ∧
  Forall (fun l => isTick l = false) ls ∧
  (epochRounds ls ≤ 1)%nat ∧
  (tickPending w = false → epochRounds ls = 0%nat).
Proof.
  intros Hr Hc Hl Hrun.
  pose proof (reachable_tinv _ _ Hr p c Hc Hl) as Hst.
  destruct (stopped_run _ _ _ _ (reachable_winv _ _ Hr) Hst Hrun) as (R1 & R2 & R3).
  split_and!; try done.
  - cbn. by rewrite R1.
  - destruct (tickPending w); lia.
  - intros E. rewrite E in R3. lia.
Qed.

Lemma lost_connection_stops_all_epochs_witness :
  step Tick (world_after (run_two_peers
                          ++ [CallWrite 1 None; Events 1%nat SelWrite])) = None.
Proof.
  eapply (lost_connection_stops_all_epochs params1 (world_after run_two_peers) 0%nat
            (default (newClient (srv (NewServer params1)) 0)
                     (heap (world_after run_two_peers) !! 0%nat))
            [CallWrite 1 None; Events 1%nat SelWrite]).
  - exists run_two_peers. vm_compute. reflexivity.
  - vm_compute. reflexivity.
  - vm_compute. intros H. discriminate H.
  - vm_compute. reflexivity.
Defined.
